(** * Hydropathy index plotter: the sliding-window core and the sequence preview

    A shallow embedding of [WebApp/hydropathy_plot.py]:

    - [FASTA_Parser]              (lines 27-41),
    - [Preview_Sequence]          (lines 44-52),
    - [Hydropathicity_value_calc] (lines 55-110),
    - [Hydropathicity_array_gen]  (lines 113-124).

    Python [int] is [Z], Python [str] is [list ascii], a raised exception is
    the [Raise] branch of [outcome].

    The numbers of the code are numpy's [float64].  They are modelled three
    times.  [Hydropathicity_value_calc] and [Hydropathicity_array_gen]
    idealise them by the exact reals [R], with [round(x, 3)] rounding to the
    nearest multiple of 1/1000, ties to the even one; a quotient by a zero
    sum of weights, inf or nan in [float64], is [R]'s [x / 0], and no
    statement depends on its value.  [Hydropathicity_value_calc_over] is the
    same calculator over any [arithmetic], of which [real_arithmetic] is the
    idealisation and [F64.arithmetic64], on the binary64 numbers of the
    kernel, is what the code runs on for the linear model.  Where the two
    differ (at rounding ties, and in the last bit of a weight) the statements
    say which arithmetic they are about. *)

From Stdlib Require Import Reals Lra Lia ZArith String Ascii Bool List.
From Equations Require Import Equations.
Import ListNotations.

Set Implicit Arguments.

(** ** Exceptions *)

Inductive exn : Type :=
| KeyError (key : ascii)
| IndexError
| ValueError.

Inductive outcome (A : Type) : Type :=
| Return (a : A)
| Raise (e : exn).

Arguments Return {A} a.
Arguments Raise {A} e.

Definition bind {A B : Type} (m : outcome A) (k : A -> outcome B) : outcome B :=
  match m with
  | Return a => k a
  | Raise e => Raise e
  end.

Notation "x <- m ;; k" := (bind m (fun x => k))
  (at level 61, m at next level, right associativity).

(** ** Python strings, slices and ranges *)

Definition str : Type := list ascii.

Definition lit (s : string) : str := list_ascii_of_string s.

Definition len (s : str) : Z := Z.of_nat (length s).

(** [s[lo:hi]]: a negative bound counts from the end, and both bounds are
    clamped to [0 .. len s]. *)
Definition slice_bound (n i : Z) : Z :=
  if (i <? 0)%Z then Z.max (i + n) 0 else Z.min i n.

Definition py_slice (s : str) (lo hi : Z) : str :=
  let a := slice_bound (len s) lo in
  let b := slice_bound (len s) hi in
  firstn (Z.to_nat (b - a)) (skipn (Z.to_nat a) s).

(** [range(start, stop, step)] for a positive [step]. *)
Definition py_range (start stop step : Z) : list Z :=
  map (fun k => (start + Z.of_nat k * step)%Z)
      (seq 0 (Z.to_nat ((stop - start + step - 1) / step))).

(** [sep.join(parts)] *)
Fixpoint str_join (sep : str) (parts : list str) : str :=
  match parts with
  | [] => []
  | [p] => p
  | p :: rest => p ++ sep ++ str_join sep rest
  end.

(** [enumerate(s)] *)
Definition enumerate (s : str) : list (nat * ascii) :=
  combine (seq 0 (length s)) s.

(** [d[k]] on a dict written as its list of items. *)
Fixpoint dict_get (d : list (ascii * R)) (k : ascii) : outcome R :=
  match d with
  | [] => Raise (KeyError k)
  | (k', v) :: d' => if Ascii.eqb k' k then Return v else dict_get d' k
  end.

(** ** numpy *)

(** [np.arange(start, stop)] on integers. *)
Definition np_arange (start stop : Z) : list Z :=
  map (fun k => (start + Z.of_nat k)%Z) (seq 0 (Z.to_nat (stop - start))).

(** [np.linspace(start, stop, num)]: [num] evenly spaced numbers from
    [start] to [stop], both included. *)
Definition np_linspace (start stop : R) (num : nat) : list R :=
  map (fun i => (start + INR i * ((stop - start) / INR (num - 1)))%R)
      (seq 0 num).

(** [np.geomspace(start, stop, num)]: [num] numbers evenly spaced on a
    logarithmic scale from [start] to [stop]; numpy refuses a zero end point
    ("Geometric sequence cannot include zero").  With end points of opposite
    sign numpy's inner entries are NaN, which [R] cannot express: the
    exponential model is only meaningful for positive end points, and the
    statements about it below assume a positive edge weight. *)
Definition np_geomspace (start stop : R) (num : nat) : outcome (list R) :=
  if Req_dec_T start 0 then Raise ValueError
  else if Req_dec_T stop 0 then Raise ValueError
  else Return (map exp (np_linspace (ln start) (ln stop) num)).

(** [np.sum(a)] *)
Definition np_sum (a : list R) : R := fold_left Rplus a 0%R.

(** [a[i]] *)
Definition np_index (a : list R) (i : nat) : outcome R :=
  match nth_error a i with
  | Some x => Return x
  | None => Raise IndexError
  end.

(** Nearest integer, ties to even. *)
Definition rint (x : R) : Z :=
  let f := Int_part x in
  let d := (x - IZR f)%R in
  if Rlt_dec d (1 / 2) then f
  else if Rlt_dec (1 / 2) d then (f + 1)%Z
  else if Z.even f then f else (f + 1)%Z.

(** [round(x, 3)] *)
Definition round3 (x : R) : R := (IZR (rint (x * 1000)) / 1000)%R.

(** ** The scale table (lines 60-81) *)

Definition Kyte_Doolittle_scale : list (ascii * R) :=
  [ ("G"%char, (-0.4)%R);
    ("A"%char, 1.8%R);
    ("V"%char, 4.2%R);
    ("L"%char, 3.8%R);
    ("I"%char, 4.5%R);
    ("P"%char, (-1.6)%R);
    ("C"%char, 2.5%R);
    ("M"%char, 1.9%R);
    ("S"%char, (-0.8)%R);
    ("T"%char, (-0.7)%R);
    ("N"%char, (-3.5)%R);
    ("Q"%char, (-3.5)%R);
    ("F"%char, 2.8%R);
    ("Y"%char, (-1.3)%R);
    ("W"%char, (-0.9)%R);
    ("D"%char, (-3.5)%R);
    ("E"%char, (-3.5)%R);
    ("K"%char, (-3.9)%R);
    ("R"%char, (-4.5)%R);
    ("H"%char, (-3.2)%R) ].

(** ** Hydropathicity_value_calc (lines 55-110) *)

Definition center_weight : R := 100%R.

Definition Linear_Variation : string := "Linear Variation".
Definition Exponential_Variation : string := "Exponential Variation".

(** Lines 89-91: the weights of the linear model. *)
Definition linear_weights (edge_weight : R) (seq_len : nat) : list R :=
  np_linspace edge_weight center_weight (seq_len / 2 + 1)
  ++ tl (np_linspace center_weight edge_weight (seq_len / 2 + 1)).

(** Lines 101-103: the weights of the exponential model. *)
Definition exponential_weights (edge_weight : R) (seq_len : nat)
  : outcome (list R) :=
  rising <- np_geomspace edge_weight center_weight (seq_len / 2 + 1) ;;
  falling <- np_geomspace center_weight edge_weight (seq_len / 2 + 1) ;;
  Return (rising ++ tl falling).

(** Lines 87 and 99: the branch on [Model]. *)
Definition model_weights (Model : string) (edge_weight : R) (seq_len : nat)
  : outcome (list R) :=
  if String.eqb Model Linear_Variation
  then Return (linear_weights edge_weight seq_len)
  else exponential_weights edge_weight seq_len.

(** Lines 94-95 (and 106-107): the loop over [enumerate(AA_seq_segment)]. *)
Fixpoint accumulate (items : list (nat * ascii)) (weights : list R)
  (hydropathy_index : R) : outcome R :=
  match items with
  | [] => Return hydropathy_index
  | (index, AA) :: rest =>
      s <- dict_get Kyte_Doolittle_scale AA ;;
      w <- np_index weights index ;;
      accumulate rest weights (hydropathy_index + s * w)%R
  end.

(** Lines 93-98 (and 105-110): the weighted average, once the weights are
    known. *)
Definition weighted_average (AA_seq_segment : str) (weights : list R)
  : outcome R :=
  hydropathy_index <- accumulate (enumerate AA_seq_segment) weights 0%R ;;
  Return (round3 (hydropathy_index / np_sum weights)).

Definition Hydropathicity_value_calc (AA_seq_segment : str) (Edge_weight : R)
  (Model : string) : outcome R :=
  let seq_len := length AA_seq_segment in
  weights <- model_weights Model Edge_weight seq_len ;;
  weighted_average AA_seq_segment weights.

(** ** Hydropathicity_array_gen (lines 113-124) *)

(** Line 120: the segment scored for the centre [index]. *)
Definition window (AA_seq : str) (Window_size index : Z) : str :=
  py_slice AA_seq (index - Window_size / 2) (index + (Window_size / 2 + 1)).

(** Lines 118-122: the loop over [AA_range]. *)
Fixpoint scan (AA_seq : str) (Window_size : Z) (EDGE_weight : R)
  (model : string) (indices : list Z) (hyrdopathicity_array : list R)
  : outcome (list R) :=
  match indices with
  | [] => Return hyrdopathicity_array
  | index :: rest =>
      v <- Hydropathicity_value_calc (window AA_seq Window_size index)
             EDGE_weight model ;;
      scan AA_seq Window_size EDGE_weight model rest
        (hyrdopathicity_array ++ [v])
  end.

Definition Hydropathicity_array_gen (AA_seq : str) (Window_size : Z)
  (EDGE_weight : R) (model : string) : outcome (list R * list Z) :=
  let AA_range :=
    np_arange (Window_size / 2) (len AA_seq - Window_size / 2) in
  values <- scan AA_seq Window_size EDGE_weight model AA_range [] ;;
  Return (values, AA_range).

(** ** Preview_Sequence (lines 44-52) *)

Definition newline : ascii := "010"%char.

Fixpoint preview_loop (Seq : str) (indices : list Z) (output : list str)
  : list str :=
  match indices with
  | [] => output
  | index :: rest =>
      if negb (index mod 60 =? 0)%Z
      then preview_loop Seq rest (output ++ [py_slice Seq index (index + 10)])
      else preview_loop Seq rest
             (output ++ [newline :: py_slice Seq index (index + 10)])
  end.

Definition Preview_Sequence (Seq : str) : str :=
  str_join (lit "    ") (preview_loop Seq (py_range 0 (len Seq) 10) []).

(** ** FASTA_Parser (lines 27-41) *)

(** The function returns the integer [-1] or a string. *)
Inductive int_or_str : Type :=
| Int (z : Z)
| Str (s : str).

(** [s.startswith(prefix)] *)
Fixpoint startswith (s prefix : str) {struct prefix} : bool :=
  match prefix, s with
  | [], _ => true
  | p :: prefix', c :: s' => Ascii.eqb c p && startswith s' prefix'
  | _ :: _, [] => false
  end.

(** [s.split(sep)] for a separator of one character: the pieces between the
    separators, empty pieces included; at least one piece. *)
Fixpoint py_split (sep : ascii) (s : str) : list str :=
  match s with
  | [] => [[]]
  | c :: rest =>
      if Ascii.eqb c sep then [] :: py_split sep rest
      else match py_split sep rest with
           | [] => [[c]]
           | piece :: pieces => (c :: piece) :: pieces
           end
  end.

Definition FASTA_Parser (FASTA_seq : str) : int_or_str :=
  if negb (startswith FASTA_seq (lit ">")) then Int (-1)
  else
    let FASTA_seq := py_split newline FASTA_seq in
    if (Z.of_nat (length FASTA_seq) <? 2)%Z then Int (-1)
    else
      let AA_seq := str_join (lit "") (skipn 1 FASTA_seq) in
      Str AA_seq.

(** ** The calculator over any arithmetic *)

Unset Implicit Arguments.

(** The numbers and the operations lines 83-110 use: the literals [0] and
    [100], [+], [*], [/], [np.sum], [round(_, 3)], the scale table and
    [np.linspace]. *)
Record arithmetic : Type := {
  num : Type;
  num_zero : num;
  num_hundred : num;
  num_add : num -> num -> num;
  num_mul : num -> num -> num;
  num_div : num -> num -> num;
  num_sum : list num -> num;
  num_round3 : num -> num;
  num_scale : list (ascii * num);
  num_linspace : num -> num -> nat -> list num
}.

Section Arithmetic.

Variable A : arithmetic.

(** [np.geomspace], whose logarithms and powers are numpy's own. *)
Variable geomspace : num A -> num A -> nat -> outcome (list (num A)).

Fixpoint dict_get_over (d : list (ascii * num A)) (k : ascii)
  : outcome (num A) :=
  match d with
  | [] => Raise (KeyError k)
  | (k', v) :: d' => if Ascii.eqb k' k then Return v else dict_get_over d' k
  end.

Definition np_index_over (a : list (num A)) (i : nat) : outcome (num A) :=
  match nth_error a i with
  | Some x => Return x
  | None => Raise IndexError
  end.

(** Lines 89-91. *)
Definition linear_weights_over (edge_weight : num A) (seq_len : nat)
  : list (num A) :=
  num_linspace A edge_weight (num_hundred A) (seq_len / 2 + 1)
  ++ tl (num_linspace A (num_hundred A) edge_weight (seq_len / 2 + 1)).

(** Lines 101-103. *)
Definition exponential_weights_over (edge_weight : num A) (seq_len : nat)
  : outcome (list (num A)) :=
  rising <- geomspace edge_weight (num_hundred A) (seq_len / 2 + 1) ;;
  falling <- geomspace (num_hundred A) edge_weight (seq_len / 2 + 1) ;;
  Return (rising ++ tl falling).

(** Lines 87 and 99. *)
Definition model_weights_over (Model : string) (edge_weight : num A)
  (seq_len : nat) : outcome (list (num A)) :=
  if String.eqb Model Linear_Variation
  then Return (linear_weights_over edge_weight seq_len)
  else exponential_weights_over edge_weight seq_len.

(** Lines 94-95 (and 106-107). *)
Fixpoint accumulate_over (items : list (nat * ascii)) (weights : list (num A))
  (hydropathy_index : num A) : outcome (num A) :=
  match items with
  | [] => Return hydropathy_index
  | (index, AA) :: rest =>
      s <- dict_get_over (num_scale A) AA ;;
      w <- np_index_over weights index ;;
      accumulate_over rest weights
        (num_add A hydropathy_index (num_mul A s w))
  end.

(** Lines 93-98 (and 105-110). *)
Definition weighted_average_over (AA_seq_segment : str)
  (weights : list (num A)) : outcome (num A) :=
  hydropathy_index <-
    accumulate_over (enumerate AA_seq_segment) weights (num_zero A) ;;
  Return (num_round3 A (num_div A hydropathy_index (num_sum A weights))).

Definition Hydropathicity_value_calc_over (AA_seq_segment : str)
  (Edge_weight : num A) (Model : string) : outcome (num A) :=
  let seq_len := length AA_seq_segment in
  weights <- model_weights_over Model Edge_weight seq_len ;;
  weighted_average_over AA_seq_segment weights.

End Arithmetic.

(** The exact reals, with the operations of [Hydropathicity_value_calc]. *)
Definition real_arithmetic : arithmetic := {|
  num := R;
  num_zero := 0%R;
  num_hundred := center_weight;
  num_add := Rplus;
  num_mul := Rmult;
  num_div := Rdiv;
  num_sum := np_sum;
  num_round3 := round3;
  num_scale := Kyte_Doolittle_scale;
  num_linspace := np_linspace
|}.

(** ** The linear model in binary64 *)

From Stdlib Require Floats.

Module F64.

Import Floats.
#[local] Set Warnings "-inexact-float".

(** An integer of the form, as a float. *)
Definition of_nat (n : nat) : float :=
  PrimFloat.of_uint63 (Uint63.of_Z (Z.of_nat n)).

(** [np.linspace(start, stop, num)] as numpy computes it: [arange(num)]
    times the step [(stop - start) / (num - 1)] (divided first when the
    step is zero), plus [start], with the last entry set to [stop]. *)
Definition np_linspace (start stop : float) (num : nat) : list float :=
  let div := of_nat (num - 1) in
  let delta := (stop - start)%float in
  let y := map of_nat (seq 0 num) in
  let y :=
    if (0 <? num - 1)%nat then
      let step := (delta / div)%float in
      if (step =? 0)%float
      then map (fun v => (v / div * delta)%float) y
      else map (fun v => (v * step)%float) y
    else map (fun v => (v * delta)%float) y in
  let y := map (fun v => (v + start)%float) y in
  if (1 <? num)%nat then removelast y ++ [stop] else y.

(** [np.sum(a)] on fewer than 8 entries, which numpy adds from left to
    right. *)
Definition np_sum (a : list float) : float :=
  fold_left PrimFloat.add a 0%float.

(** [np.rint]: the nearest integer, ties to even.  Below [2^52] in size,
    adding and taking off [2^52] rounds to it. *)
Definition rint (x : float) : float :=
  let two52 := 4503599627370496%float in
  if (PrimFloat.abs x <? two52)%float
  then if (x <? 0)%float
       then (x - two52 + two52)%float
       else (x + two52 - two52)%float
  else x.

(** [round(x, 3)] of a [np.float64]: times 1000, [rint], by 1000. *)
Definition round3 (x : float) : float := (rint (x * 1000) / 1000)%float.

(** Lines 60-81. *)
Definition Kyte_Doolittle_scale : list (ascii * float) :=
  [ ("G"%char, (-0.4)%float);
    ("A"%char, 1.8%float);
    ("V"%char, 4.2%float);
    ("L"%char, 3.8%float);
    ("I"%char, 4.5%float);
    ("P"%char, (-1.6)%float);
    ("C"%char, 2.5%float);
    ("M"%char, 1.9%float);
    ("S"%char, (-0.8)%float);
    ("T"%char, (-0.7)%float);
    ("N"%char, (-3.5)%float);
    ("Q"%char, (-3.5)%float);
    ("F"%char, 2.8%float);
    ("Y"%char, (-1.3)%float);
    ("W"%char, (-0.9)%float);
    ("D"%char, (-3.5)%float);
    ("E"%char, (-3.5)%float);
    ("K"%char, (-3.9)%float);
    ("R"%char, (-4.5)%float);
    ("H"%char, (-3.2)%float) ].

Definition arithmetic64 : arithmetic := {|
  num := float;
  num_zero := 0%float;
  num_hundred := 100%float;
  num_add := PrimFloat.add;
  num_mul := PrimFloat.mul;
  num_div := PrimFloat.div;
  num_sum := np_sum;
  num_round3 := round3;
  num_scale := Kyte_Doolittle_scale;
  num_linspace := np_linspace
|}.

(** Lines 89-91 for an integer edge weight. *)
Definition linear_weights (edge_weight seq_len : nat) : list float :=
  linear_weights_over arithmetic64 (of_nat edge_weight) seq_len.

(** What the form can pass: edge weights 1..100, odd window sizes 3..21. *)
Definition form_edges : list nat := seq 1 100.

Definition form_windows : list nat := [3; 5; 7; 9; 11; 13; 15; 17; 19; 21].

(** The shape of a weight vector, as a test: its length, the edge weight at
    both ends, 100 in the middle, no entry above 100, and mirrored entries
    within [2^-46] of each other. *)
Definition shape_ok (edge_weight seq_len : nat) : bool :=
  let w := linear_weights edge_weight seq_len in
  (length w =? seq_len)%nat
  && (nth 0 w nan =? of_nat edge_weight)%float
  && (nth (seq_len - 1) w nan =? of_nat edge_weight)%float
  && (nth (seq_len / 2) w nan =? 100)%float
  && forallb
       (fun i =>
          (nth i w nan <=? 100)%float
          && (PrimFloat.abs (nth i w nan - nth (seq_len - 1 - i) w nan)
              <=? 0x1p-46)%float)
       (seq 0 seq_len).

End F64.

Set Implicit Arguments.

(** * Notions used by the statements *)

(** ** Weights *)

(** Both models build [f] of a linear ramp, followed by the reverse ramp
    without its first entry: [f] is the identity for the linear model and
    [exp] (over the logarithms of the end points) for the exponential one. *)
Definition ramp (f : R -> R) (a b : R) (h : nat) : list R :=
  map f (np_linspace a b (h + 1)) ++ tl (map f (np_linspace b a (h + 1))).

(** ** Scale *)

Definition in_scale (c : ascii) : Prop :=
  In c (map fst Kyte_Doolittle_scale).

(** The score of a symbol of the scale (0 outside of it, where the code
    raises instead). *)
Definition scale_value (c : ascii) : R :=
  match dict_get Kyte_Doolittle_scale c with
  | Return v => v
  | Raise _ => 0%R
  end.

(** A configuration under which the weights can be built: numpy refuses a
    geometric sequence from a zero edge weight, and the exponential model is
    only modelled for positive ones. *)
Definition weights_defined (Model : string) (Edge_weight : R) : Prop :=
  Model = Linear_Variation \/ (0 < Edge_weight)%R.

(** The sum the loop accumulates, over its items. *)
Definition items_sum (items : list (nat * ascii)) (weights : list R) : R :=
  fold_right Rplus 0%R
    (map (fun item => (scale_value (snd item) * nth (fst item) weights 0)%R)
         items).

(** The score in the words of the specification: the sum of
    [scale[segment[i]] * weights[i]] over the indices of the segment, divided
    by the sum of the weights, rounded to 3 decimal places. *)
Definition sum_over (n : nat) (f : nat -> R) : R :=
  fold_right Rplus 0%R (map f (seq 0 n)).

Definition score_formula (segment : str) (weights : list R) : R :=
  round3
    (sum_over (length segment)
       (fun i => (scale_value (nth i segment zero) * nth i weights 0)%R)
     / fold_right Rplus 0%R weights).

(** An error that told the position of the symbol it reports would let one
    read that position off the error alone. *)
Definition error_locates_residue : Prop :=
  exists position_of : exn -> nat,
    forall (pre post : str) (AA : ascii) (e : exn),
      Forall in_scale pre -> ~ in_scale AA ->
      Hydropathicity_value_calc (pre ++ AA :: post) 100 Linear_Variation
      = Raise e ->
      position_of e = length pre.

(** ** Preview layout *)

(** The sequence cut into groups of ten symbols, the last one possibly
    shorter. *)
Equations groups_of_ten (s : str) : list str by wf (length s) lt :=
groups_of_ten [] := [];
groups_of_ten (c :: s') :=
  firstn 10 (c :: s') :: groups_of_ten (skipn 10 (c :: s')).
Next Obligation.
  change (length (skipn 9 s') < S (length s')).
  rewrite length_skipn. lia.
Qed.

(** A line break in front of the groups chosen by [breaks], counted from
    [k]. *)
Fixpoint break_lines (breaks : nat -> bool) (k : nat) (groups : list str)
  : list str :=
  match groups with
  | [] => []
  | g :: rest =>
      (if breaks k then newline :: g else g)
      :: break_lines breaks (S k) rest
  end.

Definition preview_layout (breaks : nat -> bool) (Seq : str) : str :=
  str_join (lit "    ") (break_lines breaks 0 (groups_of_ten Seq)).

(** Group [k] starts at residue index [10 * k]: the groups at every multiple
    of 60, and those at the positive multiples only. *)
Definition at_multiple_of_60 (k : nat) : bool := (10 * k) mod 60 =? 0.

Definition at_positive_multiple_of_60 (k : nat) : bool :=
  (0 <? 10 * k) && ((10 * k) mod 60 =? 0).


(** ** The score over any arithmetic *)

Unset Implicit Arguments.

Definition scale_value_over (A : arithmetic) (c : ascii) : num A :=
  match dict_get_over A (num_scale A) c with
  | Return v => v
  | Raise _ => num_zero A
  end.

(** The score in the words of the specification, with the operations of
    [A]: the products [scale[segment[i]] * weights[i]] added up from 0 in
    the order of the indices, divided by the sum of the weights, rounded to
    3 decimal places. *)
Definition weighted_mean_over (A : arithmetic) (segment : str)
  (weights : list (num A)) : num A :=
  num_round3 A
    (num_div A
       (fold_left
          (fun total i =>
             num_add A total
               (num_mul A (scale_value_over A (nth i segment zero))
                  (nth i weights (num_zero A))))
          (seq 0 (length segment)) (num_zero A))
       (num_sum A weights)).

Set Implicit Arguments.

(** ** FASTA text *)

Definition not_newline (c : ascii) : bool := negb (Ascii.eqb c newline).

(** ** Preview text *)

(** The characters the preview inserts: the space and the line break. *)
Definition is_layout (c : ascii) : bool :=
  Ascii.eqb c " "%char || Ascii.eqb c newline.

Definition not_layout (c : ascii) : bool := negb (is_layout c).

(** * Properties *)

(** ** Ranges and slices *)

Lemma np_arange_length (start stop : Z) :
  length (np_arange start stop) = Z.to_nat (stop - start).
Proof. unfold np_arange. now rewrite length_map, length_seq. Qed.

Lemma np_arange_nth_error (start stop : Z) (i : nat) :
  i < Z.to_nat (stop - start) ->
  nth_error (np_arange start stop) i = Some (start + Z.of_nat i)%Z.
Proof.
  intros Hi. unfold np_arange.
  rewrite nth_error_map, nth_error_seq.
  destruct (Nat.ltb_spec i (Z.to_nat (stop - start))) as [_ | Hge]; [| lia].
  reflexivity.
Qed.

Lemma np_arange_In (start stop p : Z) :
  In p (np_arange start stop) <-> (start <= p < stop)%Z.
Proof.
  unfold np_arange. rewrite in_map_iff. split.
  - intros [k [<- Hk]]. apply in_seq in Hk. lia.
  - intros Hp. exists (Z.to_nat (p - start)). split; [lia |].
    apply in_seq. lia.
Qed.

Lemma np_arange_empty (start stop : Z) :
  (stop <= start)%Z -> np_arange start stop = [].
Proof.
  intros H. unfold np_arange.
  replace (Z.to_nat (stop - start)) with 0 by lia. reflexivity.
Qed.

Lemma py_slice_inside (s : str) (lo hi : Z) :
  (0 <= lo)%Z -> (lo <= hi)%Z -> (hi <= len s)%Z ->
  py_slice s lo hi = firstn (Z.to_nat (hi - lo)) (skipn (Z.to_nat lo) s).
Proof.
  intros H0 H1 H2. unfold py_slice, slice_bound.
  destruct (Z.ltb_spec lo 0) as [Hlo | _]; [lia |].
  destruct (Z.ltb_spec hi 0) as [Hhi | _]; [lia |].
  rewrite !Z.min_l by lia. reflexivity.
Qed.

Lemma py_slice_inside_length (s : str) (lo hi : Z) :
  (0 <= lo)%Z -> (lo <= hi)%Z -> (hi <= len s)%Z ->
  length (py_slice s lo hi) = Z.to_nat (hi - lo).
Proof.
  intros H0 H1 H2. rewrite py_slice_inside by assumption.
  rewrite length_firstn, length_skipn. unfold len in H2. lia.
Qed.

Lemma py_slice_inside_nth_error (s : str) (lo hi : Z) (j : nat) :
  (0 <= lo)%Z -> (lo <= hi)%Z -> (hi <= len s)%Z ->
  j < Z.to_nat (hi - lo) ->
  nth_error (py_slice s lo hi) j = nth_error s (Z.to_nat lo + j).
Proof.
  intros H0 H1 H2 Hj. rewrite py_slice_inside by assumption.
  rewrite nth_error_firstn.
  destruct (Nat.ltb_spec j (Z.to_nat (hi - lo))) as [_ | Hge]; [| lia].
  now rewrite nth_error_skipn.
Qed.

Lemma In_firstn (A : Type) (n : nat) (l : list A) (x : A) :
  In x (firstn n l) -> In x l.
Proof.
  intros H. rewrite <- (firstn_skipn n l). apply in_or_app. now left.
Qed.

Lemma In_skipn (A : Type) (n : nat) (l : list A) (x : A) :
  In x (skipn n l) -> In x l.
Proof.
  intros H. rewrite <- (firstn_skipn n l). apply in_or_app. now right.
Qed.

Lemma py_slice_incl (s : str) (lo hi : Z) (c : ascii) :
  In c (py_slice s lo hi) -> In c s.
Proof.
  unfold py_slice. intros H.
  apply In_firstn in H. now apply In_skipn in H.
Qed.

(** ** The weight vectors *)

Lemma np_linspace_length (a b : R) (num : nat) :
  length (np_linspace a b num) = num.
Proof. unfold np_linspace. now rewrite length_map, length_seq. Qed.

Lemma np_linspace_nth (a b d : R) (num i : nat) :
  i < num ->
  nth i (np_linspace a b num) d = (a + INR i * ((b - a) / INR (num - 1)))%R.
Proof.
  intros Hi. unfold np_linspace.
  rewrite (nth_indep _ d (a + INR 0 * ((b - a) / INR (num - 1)))%R)
    by now rewrite length_map, length_seq.
  rewrite (map_nth (fun i => (a + INR i * ((b - a) / INR (num - 1)))%R)).
  now rewrite seq_nth.
Qed.

Lemma nth_tl (A : Type) (l : list A) (d : A) (j : nat) :
  nth j (tl l) d = nth (S j) l d.
Proof. destruct l as [| x l]; [now destruct j | reflexivity]. Qed.

Lemma linear_weights_ramp (e : R) (n : nat) :
  linear_weights e n = ramp (fun x => x) e center_weight (n / 2).
Proof. unfold linear_weights, ramp. now rewrite !map_id. Qed.

Lemma exponential_weights_ramp (e : R) (n : nat) :
  e <> 0%R ->
  exponential_weights e n = Return (ramp exp (ln e) (ln center_weight) (n / 2)).
Proof.
  intros He. unfold exponential_weights, np_geomspace, ramp, center_weight.
  destruct (Req_dec_T e 0) as [E | _]; [contradiction |].
  destruct (Req_dec_T 100 0) as [E | _]; [lra |].
  reflexivity.
Qed.

Lemma exponential_weights_zero (n : nat) :
  exponential_weights 0 n = Raise ValueError.
Proof.
  unfold exponential_weights, np_geomspace.
  destruct (Req_dec_T 0 0) as [_ | N]; [reflexivity | now elim N].
Qed.

Lemma ramp_length (f : R -> R) (a b : R) (h : nat) :
  length (ramp f a b h) = 2 * h + 1.
Proof.
  unfold ramp. rewrite length_app, length_map, np_linspace_length.
  assert (Hl : length (map f (np_linspace b a (h + 1))) = h + 1)
    by now rewrite length_map, np_linspace_length.
  destruct (map f (np_linspace b a (h + 1))) as [| x l]; simpl in *; lia.
Qed.

Lemma ramp_nth_low (f : R -> R) (a b d : R) (h i : nat) :
  i <= h ->
  nth i (ramp f a b h) d = f (a + INR i * ((b - a) / INR h))%R.
Proof.
  intros Hi. unfold ramp.
  rewrite app_nth1 by (rewrite length_map, np_linspace_length; lia).
  rewrite (nth_indep _ d (f 0%R))
    by (rewrite length_map, np_linspace_length; lia).
  rewrite map_nth, np_linspace_nth by lia.
  now replace (h + 1 - 1) with h by lia.
Qed.

Lemma ramp_nth_high (f : R -> R) (a b d : R) (h j : nat) :
  1 <= j <= h ->
  nth (h + j) (ramp f a b h) d = f (b + INR j * ((a - b) / INR h))%R.
Proof.
  intros Hj. unfold ramp.
  rewrite app_nth2 by (rewrite length_map, np_linspace_length; lia).
  rewrite length_map, np_linspace_length, nth_tl.
  replace (S (h + j - (h + 1))) with j by lia.
  rewrite (nth_indep _ d (f 0%R))
    by (rewrite length_map, np_linspace_length; lia).
  rewrite map_nth, np_linspace_nth by lia.
  now replace (h + 1 - 1) with h by lia.
Qed.

(** The ramp reads the same from both ends. *)
Lemma ramp_symmetric (f : R -> R) (a b d : R) (h i : nat) :
  1 <= h -> i < 2 * h + 1 ->
  nth i (ramp f a b h) d = nth (2 * h + 1 - 1 - i) (ramp f a b h) d.
Proof.
  intros Hh Hi.
  assert (Hh0 : INR h <> 0%R) by (apply not_0_INR; lia).
  assert (low_high : forall k, k < h ->
            nth k (ramp f a b h) d = nth (h + (h - k)) (ramp f a b h) d).
  { intros k Hk. rewrite ramp_nth_low, ramp_nth_high by lia.
    f_equal. rewrite minus_INR by lia. field. exact Hh0. }
  destruct (Nat.lt_trichotomy i h) as [Hlt | [-> | Hgt]].
  - rewrite low_high by assumption. f_equal. lia.
  - f_equal. lia.
  - rewrite (low_high (2 * h + 1 - 1 - i)) by lia. f_equal. lia.
Qed.

Lemma ramp_nth_middle (f : R -> R) (a b d : R) (h : nat) :
  1 <= h -> nth h (ramp f a b h) d = f b.
Proof.
  intros Hh. rewrite ramp_nth_low by lia. f_equal. field.
  apply not_0_INR; lia.
Qed.

(** With a non-decreasing [f] and [a <= b], no entry exceeds the middle one
    and none is below the edge one. *)
Lemma ramp_bounds (f : R -> R) (a b d : R) (h i : nat) :
  (forall x y, (x <= y)%R -> (f x <= f y)%R) ->
  (a <= b)%R -> 1 <= h -> i < 2 * h + 1 ->
  (f a <= nth i (ramp f a b h) d <= f b)%R.
Proof.
  intros Hf Hab Hh Hi.
  assert (Hh0 : (0 < INR h)%R) by (apply lt_0_INR; lia).
  assert (low : forall k, k <= h ->
            (f a <= nth k (ramp f a b h) d <= f b)%R).
  { intros k Hk. rewrite ramp_nth_low by lia.
    assert (Hk' : (0 <= INR k <= INR h)%R)
      by (split; [apply pos_INR | apply le_INR; lia]).
    assert (Hq : (0 <= INR k / INR h <= 1)%R).
    { split.
      - apply Rmult_le_pos; [lra | left; now apply Rinv_0_lt_compat].
      - apply (Rmult_le_reg_r (INR h)); [lra |]. field_simplify; lra. }
    replace (a + INR k * ((b - a) / INR h))%R
      with (a + (INR k / INR h) * (b - a))%R by (field; lra).
    split; apply Hf; nra. }
  destruct (Nat.le_gt_cases i h) as [Hle | Hgt].
  - now apply low.
  - rewrite ramp_symmetric by lia. apply low. lia.
Qed.

(** ** The scale and the scoring loop *)

Lemma dict_get_in (d : list (ascii * R)) (k : ascii) :
  In k (map fst d) -> exists v, dict_get d k = Return v.
Proof.
  induction d as [| [k' v] d IH]; simpl; intros H; [contradiction |].
  destruct (Ascii.eqb_spec k' k) as [E | N].
  - now exists v.
  - destruct H as [E | H]; [contradiction | now apply IH].
Qed.

Lemma dict_get_not_in (d : list (ascii * R)) (k : ascii) :
  ~ In k (map fst d) -> dict_get d k = Raise (KeyError k).
Proof.
  induction d as [| [k' v] d IH]; simpl; intros H; [reflexivity |].
  destruct (Ascii.eqb_spec k' k) as [E | N].
  - elim H. now left.
  - apply IH. intros H'. apply H. now right.
Qed.

Lemma in_scale_value (c : ascii) :
  in_scale c -> dict_get Kyte_Doolittle_scale c = Return (scale_value c).
Proof.
  intros H. unfold scale_value.
  destruct (dict_get_in Kyte_Doolittle_scale c H) as [v ->]. reflexivity.
Qed.

Lemma in_scale_dec (c : ascii) : {in_scale c} + {~ in_scale c}.
Proof. apply in_dec, ascii_dec. Qed.

Lemma accumulate_Return (items : list (nat * ascii)) (weights : list R) :
  Forall (fun item => in_scale (snd item) /\ fst item < length weights) items ->
  forall acc,
    accumulate items weights acc = Return (acc + items_sum items weights)%R.
Proof.
  induction 1 as [| [index AA] rest [HAA Hindex] _ IH]; intros acc.
  - simpl. f_equal. unfold items_sum. simpl. lra.
  - simpl in HAA, Hindex. cbn [accumulate].
    rewrite (in_scale_value HAA). cbn [bind].
    unfold np_index.
    destruct (nth_error weights index) as [w |] eqn:Hw;
      [| apply nth_error_None in Hw; lia].
    cbn [bind]. rewrite IH. f_equal.
    unfold items_sum. cbn [map fold_right fst snd].
    rewrite (nth_error_nth _ _ 0%R Hw). lra.
Qed.

(** The first symbol outside the scale stops the loop with its [KeyError]. *)
Lemma accumulate_KeyError (pre post : list (nat * ascii)) (index : nat)
  (AA : ascii) (weights : list R) :
  Forall (fun item => in_scale (snd item) /\ fst item < length weights) pre ->
  ~ in_scale AA ->
  forall acc,
    accumulate (pre ++ (index, AA) :: post) weights acc = Raise (KeyError AA).
Proof.
  induction 1 as [| [i c] rest [Hc Hi] _ IH]; intros HAA acc.
  - cbn [app accumulate]. rewrite (dict_get_not_in _ _ HAA). reflexivity.
  - simpl in Hc, Hi. cbn [app accumulate].
    rewrite (in_scale_value Hc). cbn [bind].
    unfold np_index.
    destruct (nth_error weights i) as [w |] eqn:Hw;
      [| apply nth_error_None in Hw; lia].
    cbn [bind]. now apply IH.
Qed.

Lemma enumerate_from (s : str) (d : ascii) (start : nat) :
  combine (seq start (length s)) s
  = map (fun i => (i, nth (i - start) s d)) (seq start (length s)).
Proof.
  revert start. induction s as [| c s IH]; intros start; [reflexivity |].
  cbn [length seq combine map]. rewrite Nat.sub_diag. cbn [nth]. f_equal.
  rewrite IH. apply map_ext_in. intros i Hi. apply in_seq in Hi.
  replace (i - start) with (S (i - S start)) by lia. reflexivity.
Qed.

Lemma enumerate_nth (s : str) (d : ascii) :
  enumerate s = map (fun i => (i, nth i s d)) (seq 0 (length s)).
Proof.
  unfold enumerate. rewrite (enumerate_from s d 0).
  apply map_ext. intros i. now rewrite Nat.sub_0_r.
Qed.

Lemma combine_seq_app (s t : str) (start : nat) :
  combine (seq start (length (s ++ t))) (s ++ t)
  = combine (seq start (length s)) s
    ++ combine (seq (start + length s) (length t)) t.
Proof.
  revert start. induction s as [| c s IH]; intros start.
  - simpl. now rewrite Nat.add_0_r.
  - cbn [app length seq combine]. rewrite IH.
    now replace (S start + length s) with (start + S (length s)) by lia.
Qed.

Lemma enumerate_app (s t : str) :
  enumerate (s ++ t)
  = enumerate s ++ combine (seq (length s) (length t)) t.
Proof. unfold enumerate. now rewrite combine_seq_app. Qed.

Lemma enumerate_Forall (s : str) (P : nat * ascii -> Prop) :
  (forall i c, nth_error s i = Some c -> P (i, c)) ->
  Forall P (enumerate s).
Proof.
  intros H. apply Forall_forall. intros [i c] Hin.
  apply H. unfold enumerate in Hin.
  apply (In_nth _ _ (0, c)) in Hin. destruct Hin as [k [Hk Hnth]].
  rewrite length_combine, length_seq, Nat.min_id in Hk.
  rewrite (combine_nth _ _ k 0 c) in Hnth by now rewrite length_seq.
  rewrite seq_nth in Hnth by assumption. simpl in Hnth.
  injection Hnth as <- <-. now apply nth_error_nth'.
Qed.

Lemma fold_left_Rplus (l : list R) (a : R) :
  fold_left Rplus l a = (a + fold_right Rplus 0 l)%R.
Proof.
  revert a. induction l as [| x l IH]; intros a; simpl; [lra |].
  rewrite IH. lra.
Qed.

Lemma np_sum_fold_right (l : list R) : np_sum l = fold_right Rplus 0%R l.
Proof. unfold np_sum. rewrite fold_left_Rplus. lra. Qed.

(** ** The score of one window *)

Lemma model_weights_Return (Model : string) (e : R) (n : nat) :
  weights_defined Model e ->
  exists weights,
    model_weights Model e n = Return weights
    /\ length weights = 2 * (n / 2) + 1
    /\ (Model = Linear_Variation -> weights = linear_weights e n)
    /\ (Model <> Linear_Variation ->
        weights = ramp exp (ln e) (ln center_weight) (n / 2)).
Proof.
  intros Hdef. unfold model_weights.
  destruct (String.eqb_spec Model Linear_Variation) as [E | N].
  - exists (linear_weights e n). split; [reflexivity |]. split.
    + rewrite linear_weights_ramp. apply ramp_length.
    + split; [reflexivity | contradiction].
  - destruct Hdef as [E | He]; [contradiction |].
    rewrite exponential_weights_ramp by lra.
    eexists. split; [reflexivity |]. split; [apply ramp_length |].
    split; [contradiction | reflexivity].
Qed.

Lemma weighted_average_formula (segment : str) (weights : list R) :
  Forall in_scale segment ->
  length segment <= length weights ->
  weighted_average segment weights = Return (score_formula segment weights).
Proof.
  intros Hscale Hlen. unfold weighted_average.
  rewrite accumulate_Return.
  - cbn [bind]. unfold score_formula, sum_over, items_sum.
    rewrite np_sum_fold_right, (enumerate_nth segment zero), map_map.
    cbn [fst snd]. do 3 f_equal. lra.
  - apply enumerate_Forall. intros i c Hi. cbn [fst snd]. split.
    + rewrite Forall_forall in Hscale. apply Hscale.
      now apply nth_error_In in Hi.
    + assert (i < length segment) by (apply nth_error_Some; congruence). lia.
Qed.

Lemma half_window_covers (n : nat) : n <= 2 * (n / 2) + 1.
Proof.
  pose proof (Nat.div_mod_eq n 2) as H.
  pose proof (Nat.mod_upper_bound n 2) as H2. lia.
Qed.

Lemma value_calc_score (segment : str) (e : R) (Model : string) :
  Forall in_scale segment ->
  weights_defined Model e ->
  exists weights,
    model_weights Model e (length segment) = Return weights
    /\ Hydropathicity_value_calc segment e Model
       = Return (score_formula segment weights).
Proof.
  intros Hscale Hdef.
  destruct (model_weights_Return (length segment) Hdef)
    as [weights [Hw [Hlen _]]].
  exists weights. split; [exact Hw |].
  unfold Hydropathicity_value_calc. rewrite Hw. cbn [bind].
  apply weighted_average_formula; [exact Hscale |].
  rewrite Hlen. apply half_window_covers.
Qed.

(** The first symbol outside the scale decides the outcome of the score. *)
Lemma value_calc_KeyError (pre post : str) (AA : ascii) (e : R)
  (Model : string) :
  Forall in_scale pre -> ~ in_scale AA ->
  weights_defined Model e ->
  Hydropathicity_value_calc (pre ++ AA :: post) e Model = Raise (KeyError AA).
Proof.
  intros Hpre HAA Hdef.
  destruct (model_weights_Return (length (pre ++ AA :: post)) Hdef)
    as [weights [Hw [Hlen _]]].
  unfold Hydropathicity_value_calc, weighted_average. rewrite Hw. cbn [bind].
  rewrite enumerate_app. cbn [length seq combine].
  rewrite accumulate_KeyError; [reflexivity | | exact HAA].
  apply enumerate_Forall. intros i c Hi. cbn [fst snd]. split.
  - rewrite Forall_forall in Hpre. apply Hpre. now apply nth_error_In in Hi.
  - assert (i < length pre) by (apply nth_error_Some; congruence).
    pose proof (half_window_covers (length (pre ++ AA :: post))) as Hc.
    rewrite length_app in Hc, Hlen. lia.
Qed.


(** ** The scan over the centre positions *)

Lemma first_failing (A : Type) (P : A -> Prop)
  (P_dec : forall x, {P x} + {~ P x}) (l : list A) :
  Forall P l
  \/ exists pre x post, l = pre ++ x :: post /\ Forall P pre /\ ~ P x.
Proof.
  induction l as [| y l IH]; [left; constructor |].
  destruct (P_dec y) as [Hy | Hy].
  - destruct IH as [Hall | [pre [x [post [-> [Hpre Hx]]]]]].
    + left. now constructor.
    + right. exists (y :: pre), x, post. repeat split; auto.
  - right. exists [], y, l. repeat split; auto.
Qed.

Lemma Forall2_nth_error (A B : Type) (Q : A -> B -> Prop) (l : list A)
  (l' : list B) :
  Forall2 Q l l' ->
  forall i a, nth_error l i = Some a ->
  exists b, nth_error l' i = Some b /\ Q a b.
Proof.
  induction 1 as [| x y l l' Hxy _ IH]; intros i a Hi.
  - now destruct i.
  - destruct i as [| i]; simpl in *.
    + injection Hi as <-. now exists y.
    + now apply IH.
Qed.

Section Scan.

Variables (AA_seq : str) (Window_size : Z) (EDGE_weight : R) (model : string).

Let score (index : Z) : outcome R :=
  Hydropathicity_value_calc (window AA_seq Window_size index)
    EDGE_weight model.

Lemma scan_Return (indices : list Z) :
  Forall (fun index => exists v, score index = Return v) indices ->
  forall acc, exists values,
    scan AA_seq Window_size EDGE_weight model indices acc
    = Return (acc ++ values)
    /\ Forall2 (fun index v => score index = Return v) indices values.
Proof.
  induction 1 as [| index rest [v Hv] _ IH]; intros acc.
  - exists []. split; [now rewrite app_nil_r | constructor].
  - destruct (IH (acc ++ [v])) as [values [Hscan Hall]].
    exists (v :: values). split.
    + cbn [scan]. fold (score index). rewrite Hv. cbn [bind].
      rewrite Hscan. now rewrite <- app_assoc.
    + now constructor.
Qed.

Lemma scan_Raise (pre post : list Z) (index : Z) (e : exn) :
  Forall (fun index => exists v, score index = Return v) pre ->
  score index = Raise e ->
  forall acc,
    scan AA_seq Window_size EDGE_weight model (pre ++ index :: post) acc
    = Raise e.
Proof.
  induction 1 as [| q rest [v Hv] _ IH]; intros He acc.
  - cbn [app scan]. fold (score index). now rewrite He.
  - cbn [app scan]. fold (score q). rewrite Hv. cbn [bind]. now apply IH.
Qed.

End Scan.

Lemma scan_window_ext (AA_seq : str) (W W' : Z) (e : R) (model : string) :
  (forall index, window AA_seq W index = window AA_seq W' index) ->
  forall indices acc,
    scan AA_seq W e model indices acc = scan AA_seq W' e model indices acc.
Proof.
  intros Hw. induction indices as [| index rest IH]; intros acc;
    [reflexivity |].
  cbn [scan]. rewrite Hw.
  destruct (Hydropathicity_value_calc (window AA_seq W' index) e model);
    cbn [bind]; [apply IH | reflexivity].
Qed.

(** For a window size that is not negative, the segment of a centre
    position of the range is the full window: [2 * (W // 2) + 1] symbols,
    starting [W // 2] symbols before the centre. *)
Lemma window_centered (AA_seq : str) (W p : Z) :
  (0 <= W)%Z ->
  (W / 2 <= p < len AA_seq - W / 2)%Z ->
  length (window AA_seq W p) = Z.to_nat (2 * (W / 2) + 1)
  /\ forall j, j < Z.to_nat (2 * (W / 2) + 1) ->
       nth_error (window AA_seq W p) j
       = nth_error AA_seq (Z.to_nat (p - W / 2) + j).
Proof.
  intros HW Hp.
  assert (Hh : (0 <= W / 2)%Z) by (apply Z.div_pos; lia).
  unfold window. split.
  - rewrite py_slice_inside_length by lia. f_equal. lia.
  - intros j Hj. apply py_slice_inside_nth_error; lia.
Qed.

Lemma window_in_scale (AA_seq : str) (W p : Z) :
  Forall in_scale AA_seq -> Forall in_scale (window AA_seq W p).
Proof.
  rewrite !Forall_forall. intros H c Hc. apply H.
  unfold window in Hc. now apply py_slice_incl in Hc.
Qed.

Lemma even_half (W : Z) : Z.even W = true -> ((W + 1) / 2 = W / 2)%Z.
Proof.
  intros H. apply Z.even_spec in H. destruct H as [k ->].
  rewrite (Z.mul_comm 2 k), Z.div_add_l, Z.div_mul by lia.
  now rewrite Z.add_0_r.
Qed.

(** ** Rounding *)

Lemma rint_nearest (x : R) (z : Z) :
  (IZR z - 1 / 2 < x < IZR z + 1 / 2)%R -> rint x = z.
Proof.
  intros [Hlo Hhi]. unfold rint.
  pose proof (base_Int_part x) as [Hf1 Hf2]. cbv zeta.
  generalize dependent (Int_part x). intros f Hf1 Hf2.
  destruct (Rlt_dec (x - IZR f) (1 / 2)) as [Hd | Hd].
  - assert (z < f + 1)%Z by (apply lt_IZR; rewrite plus_IZR; lra).
    assert (f < z + 1)%Z by (apply lt_IZR; rewrite plus_IZR; lra).
    lia.
  - apply Rnot_lt_le in Hd.
    assert (f < z)%Z by (apply lt_IZR; lra).
    assert (z < f + 2)%Z by (apply lt_IZR; rewrite plus_IZR; lra).
    destruct (Rlt_dec (1 / 2) (x - IZR f)) as [Hd' | Hd'].
    + lia.
    + apply Rnot_lt_le in Hd'.
      assert (z < f + 1)%Z by (apply lt_IZR; rewrite plus_IZR; lra).
      lia.
Qed.

Lemma round3_nearest (x : R) (z : Z) :
  (IZR z - 1 / 2 < x * 1000 < IZR z + 1 / 2)%R ->
  round3 x = (IZR z / 1000)%R.
Proof. intros H. unfold round3. now rewrite (rint_nearest _ H). Qed.

(** * The profile builder *)

(** C1.  For a sequence over the scale's alphabet (and a configuration whose
    weights can be built), [Hydropathicity_array_gen] returns a profile whose
    positions are exactly the integers of [[W // 2, L - W // 2)] in increasing
    order, [L - 2 * (W // 2)] of them when that is positive and none
    otherwise, with as many values; the value at index [i] is the score of
    the segment cut around [positions[i]], which for a window size that is
    not negative is the full window of [2 * (W // 2) + 1] symbols centred
    there. *)
Theorem array_gen_profile (AA_seq : str) (Window_size : Z) (EDGE_weight : R)
  (model : string) :
  Forall in_scale AA_seq ->
  weights_defined model EDGE_weight ->
  exists values positions,
    Hydropathicity_array_gen AA_seq Window_size EDGE_weight model
    = Return (values, positions)
    /\ (forall p, In p positions
                  <-> (Window_size / 2 <= p < len AA_seq - Window_size / 2)%Z)
    /\ (forall i, i < length positions ->
                  nth_error positions i
                  = Some (Window_size / 2 + Z.of_nat i)%Z)
    /\ length positions = Z.to_nat (len AA_seq - 2 * (Window_size / 2))
    /\ length values = length positions
    /\ (forall i p, nth_error positions i = Some p ->
          exists v,
            nth_error values i = Some v
            /\ Hydropathicity_value_calc (window AA_seq Window_size p)
                 EDGE_weight model = Return v)
    /\ ((0 <= Window_size)%Z ->
        forall p, In p positions ->
          length (window AA_seq Window_size p)
          = Z.to_nat (2 * (Window_size / 2) + 1)
          /\ forall j, j < Z.to_nat (2 * (Window_size / 2) + 1) ->
               nth_error (window AA_seq Window_size p) j
               = nth_error AA_seq (Z.to_nat (p - Window_size / 2) + j)).
Proof.
  intros Hscale Hdef.
  set (positions :=
         np_arange (Window_size / 2) (len AA_seq - Window_size / 2)).
  destruct (@scan_Return AA_seq Window_size EDGE_weight model positions)
    with (acc := @nil R) as [values [Hscan Hall]].
  { apply Forall_forall. intros p _.
    destruct (@value_calc_score (window AA_seq Window_size p) EDGE_weight
                model) as [w [_ Hv]];
      [now apply window_in_scale | exact Hdef | eauto]. }
  exists values, positions.
  split; [| split; [| split; [| split; [| split; [| split]]]]].
  - unfold Hydropathicity_array_gen. fold positions. now rewrite Hscan.
  - intros p. apply np_arange_In.
  - intros i Hi. apply np_arange_nth_error.
    unfold positions in Hi. now rewrite np_arange_length in Hi.
  - unfold positions. rewrite np_arange_length. f_equal. lia.
  - symmetry. exact (Forall2_length Hall).
  - intros i p Hp. exact (Forall2_nth_error Hall i Hp).
  - intros HW p Hp. apply window_centered; [assumption |].
    now apply np_arange_In.
Qed.

Lemma array_gen_profile_witness :
  exists values positions,
    Hydropathicity_array_gen (lit "GAVLI") 3 100 Linear_Variation
    = Return (values, positions)
    /\ (forall p, In p positions <-> (3 / 2 <= p < len (lit "GAVLI") - 3 / 2)%Z)
    /\ (forall i, i < length positions ->
                  nth_error positions i = Some (3 / 2 + Z.of_nat i)%Z)
    /\ length positions = Z.to_nat (len (lit "GAVLI") - 2 * (3 / 2))
    /\ length values = length positions
    /\ (forall i p, nth_error positions i = Some p ->
          exists v,
            nth_error values i = Some v
            /\ Hydropathicity_value_calc (window (lit "GAVLI") 3 p)
                 100 Linear_Variation = Return v)
    /\ ((0 <= 3)%Z ->
        forall p, In p positions ->
          length (window (lit "GAVLI") 3 p) = Z.to_nat (2 * (3 / 2) + 1)
          /\ forall j, j < Z.to_nat (2 * (3 / 2) + 1) ->
               nth_error (window (lit "GAVLI") 3 p) j
               = nth_error (lit "GAVLI") (Z.to_nat (p - 3 / 2) + j)).
Proof.
  apply (@array_gen_profile (lit "GAVLI") 3 100 Linear_Variation).
  - unfold in_scale. repeat constructor; simpl; tauto.
  - left. reflexivity.
Defined.

(** C5.  A sequence shorter than the window size yields the empty profile,
    not an error (whatever its symbols). *)
Theorem short_sequence_empty_profile (AA_seq : str) (Window_size : Z)
  (EDGE_weight : R) (model : string) :
  (len AA_seq < Window_size)%Z ->
  Hydropathicity_array_gen AA_seq Window_size EDGE_weight model
  = Return ([], []).
Proof.
  intros Hshort. unfold Hydropathicity_array_gen.
  rewrite np_arange_empty; [reflexivity |].
  pose proof (Z.div_mod Window_size 2) as Hdm.
  pose proof (Z.mod_pos_bound Window_size 2) as Hmod. lia.
Qed.

Lemma short_sequence_empty_profile_witness :
  (len (lit "GA") < 3)%Z
  /\ Hydropathicity_array_gen (lit "GA") 3 100 Linear_Variation
     = Return ([], []).
Proof.
  split; [reflexivity |].
  apply (@short_sequence_empty_profile (lit "GA") 3 100 Linear_Variation).
  reflexivity.
Defined.

(** C10.  An even window size [W >= 2] gives the very profile of [W + 1]:
    the range of centres and the segments depend on [W // 2] only, and each
    scored segment has [W + 1] symbols. *)
Theorem even_window_as_next_odd (AA_seq : str) (Window_size : Z)
  (EDGE_weight : R) (model : string) :
  (2 <= Window_size)%Z -> Z.even Window_size = true ->
  Hydropathicity_array_gen AA_seq Window_size EDGE_weight model
  = Hydropathicity_array_gen AA_seq (Window_size + 1) EDGE_weight model
  /\ (forall index,
        window AA_seq Window_size index
        = window AA_seq (Window_size + 1) index)
  /\ (forall index,
        In index (np_arange (Window_size / 2)
                    (len AA_seq - Window_size / 2)) ->
        Z.of_nat (length (window AA_seq Window_size index))
        = (Window_size + 1)%Z).
Proof.
  intros Hge Heven.
  pose proof (even_half Window_size Heven) as Hhalf.
  assert (Hwin : forall index,
             window AA_seq Window_size index
             = window AA_seq (Window_size + 1) index).
  { intros index. unfold window. now rewrite Hhalf. }
  split; [| split].
  - unfold Hydropathicity_array_gen. rewrite Hhalf.
    now rewrite (@scan_window_ext AA_seq Window_size (Window_size + 1)
                   EDGE_weight model Hwin).
  - exact Hwin.
  - intros index Hin. apply np_arange_In in Hin.
    destruct (@window_centered AA_seq Window_size index) as [Hlen _];
      [lia | exact Hin |].
    rewrite Hlen. apply Z.even_spec in Heven. destruct Heven as [k Hk].
    assert (Window_size / 2 = k)%Z
      by (subst Window_size; rewrite Z.mul_comm; apply Z.div_mul; lia).
    lia.
Qed.

Lemma even_window_as_next_odd_witness :
  Hydropathicity_array_gen (lit "GAVLI") 4 100 Linear_Variation
  = Hydropathicity_array_gen (lit "GAVLI") (4 + 1) 100 Linear_Variation
  /\ (forall index,
        window (lit "GAVLI") 4 index = window (lit "GAVLI") (4 + 1) index)
  /\ (forall index,
        In index (np_arange (4 / 2) (len (lit "GAVLI") - 4 / 2)) ->
        Z.of_nat (length (window (lit "GAVLI") 4 index)) = (4 + 1)%Z).
Proof.
  apply (@even_window_as_next_odd (lit "GAVLI") 4 100 Linear_Variation).
  - lia.
  - reflexivity.
Defined.

(** * The windowed score *)

Lemma nth_scaled (c : R) (weights : list R) (i : nat) :
  nth i (map (Rmult c) weights) 0%R = (c * nth i weights 0)%R.
Proof.
  destruct (Nat.lt_ge_cases i (length weights)) as [Hlt | Hge].
  - rewrite (nth_indep _ 0%R (c * 0)%R) by now rewrite length_map.
    apply (map_nth (Rmult c)).
  - rewrite !nth_overflow by (try rewrite length_map; lia). lra.
Qed.

Lemma fold_right_scaled (A : Type) (c : R) (g : A -> R) (l : list A) :
  fold_right Rplus 0%R (map (fun x => (c * g x)%R) l)
  = (c * fold_right Rplus 0%R (map g l))%R.
Proof. induction l as [| x l IH]; simpl; [lra | rewrite IH; lra]. Qed.

Lemma score_formula_scaled (segment : str) (weights : list R) (c : R) :
  c <> 0%R -> fold_right Rplus 0%R weights <> 0%R ->
  score_formula segment (map (Rmult c) weights)
  = score_formula segment weights.
Proof.
  intros Hc Hsum. unfold score_formula, sum_over. f_equal.
  rewrite (map_ext _ (fun i => (c * (scale_value (nth i segment zero)
                                      * nth i weights 0))%R))
    by (intros i; rewrite nth_scaled; lra).
  rewrite fold_right_scaled.
  replace (map (Rmult c) weights) with (map (fun x => (c * id x)%R) weights)
    by reflexivity.
  rewrite fold_right_scaled, map_id.
  field. split; assumption.
Qed.

Lemma positive_sum (weights : list R) :
  Forall (fun w => (0 < w)%R) weights -> weights <> [] ->
  (0 < fold_right Rplus 0%R weights)%R.
Proof.
  induction 1 as [| w rest Hw Hrest IH]; intros Hne; [now elim Hne |].
  cbn [fold_right]. destruct rest as [| w' rest'].
  - simpl. lra.
  - assert (0 < fold_right Rplus 0 (w' :: rest'))%R
      by (apply IH; discriminate).
    lra.
Qed.

Lemma weighted_average_scaled (segment : str) (weights : list R)
  (c : R) :
  Forall in_scale segment ->
  length weights = length segment ->
  Forall (fun w => (0 < w)%R) weights ->
  (0 < c)%R ->
  exists v,
    weighted_average segment weights = Return v
    /\ weighted_average segment (map (Rmult c) weights) = Return v.
Proof.
  intros Hscale Hlen Hpos Hc.
  exists (score_formula segment weights). split.
  - apply weighted_average_formula; [exact Hscale | lia].
  - rewrite weighted_average_formula;
      [| exact Hscale | rewrite length_map; lia].
    f_equal. destruct weights as [| w rest]; [reflexivity |].
    apply score_formula_scaled; [lra |].
    assert (0 < fold_right Rplus 0 (w :: rest))%R
      by (apply positive_sum; [exact Hpos | discriminate]).
    lra.
Qed.

(** * Worked examples *)

Lemma linear_weights_flat_3 : linear_weights 100 3 = [100; 100; 100]%R.
Proof.
  unfold linear_weights, np_linspace, center_weight.
  cbn [Nat.div Nat.divmod fst Nat.add seq map tl app Nat.sub INR].
  repeat f_equal; lra.
Qed.

(** The score of three symbols under equal weights is their plain average,
    rounded. *)
Lemma value_calc_flat_3 (a b c : ascii) (z : Z) :
  Forall in_scale [a; b; c] ->
  (IZR z - 1 / 2
   < (scale_value a + scale_value b + scale_value c) / 3 * 1000
   < IZR z + 1 / 2)%R ->
  Hydropathicity_value_calc [a; b; c] 100 Linear_Variation
  = Return (IZR z / 1000)%R.
Proof.
  intros Hscale Hz.
  destruct (@value_calc_score [a; b; c] 100 Linear_Variation Hscale)
    as [weights [Hw Hv]]; [now left |].
  change (model_weights Linear_Variation 100 (length [a; b; c]))
    with (Return (linear_weights 100 3)) in Hw.
  injection Hw as <-. rewrite Hv. f_equal.
  rewrite linear_weights_flat_3.
  unfold score_formula, sum_over.
  cbn [length seq map nth fold_right].
  apply round3_nearest.
  replace ((scale_value a * 100 + (scale_value b * 100
             + (scale_value c * 100 + 0))) / (100 + (100 + (100 + 0))))%R
    with ((scale_value a + scale_value b + scale_value c) / 3)%R by field.
  exact Hz.
Qed.

(** C6.  For "GAVLI" with window size 3, edge weight 100 and the linear
    model: the weights are [100, 100, 100], the positions are [1, 2, 3], and
    the value at position 1 is the rounded plain average of the scores of G,
    A and V, [round((-0.4 + 1.8 + 4.2) / 3, 3) = 1.867]. *)
Theorem GAVLI_profile :
  model_weights Linear_Variation 100 3 = Return [100; 100; 100]%R
  /\ Hydropathicity_array_gen (lit "GAVLI") 3 100 Linear_Variation
     = Return ([1.867; 3.267; 4.167]%R, [1; 2; 3]%Z)
  /\ Hydropathicity_value_calc (window (lit "GAVLI") 3 1) 100 Linear_Variation
     = Return (round3 ((-0.4 + 1.8 + 4.2) / 3))
  /\ round3 ((-0.4 + 1.8 + 4.2) / 3) = 1.867%R.
Proof.
  assert (Hround : round3 ((-0.4 + 1.8 + 4.2) / 3) = 1.867%R).
  { rewrite (@round3_nearest _ 1867) by lra. lra. }
  assert (H1 : Hydropathicity_value_calc (lit "GAV") 100 Linear_Variation
               = Return 1.867%R).
  { change (lit "GAV") with ["G"; "A"; "V"]%char.
    rewrite (@value_calc_flat_3 "G" "A" "V" 1867).
    - f_equal; lra.
    - unfold in_scale. repeat constructor; simpl; tauto.
    - unfold scale_value. cbn [dict_get Kyte_Doolittle_scale Ascii.eqb
                                 Bool.eqb andb]. lra. }
  assert (H2 : Hydropathicity_value_calc (lit "AVL") 100 Linear_Variation
               = Return 3.267%R).
  { change (lit "AVL") with ["A"; "V"; "L"]%char.
    rewrite (@value_calc_flat_3 "A" "V" "L" 3267).
    - f_equal; lra.
    - unfold in_scale. repeat constructor; simpl; tauto.
    - unfold scale_value. cbn [dict_get Kyte_Doolittle_scale Ascii.eqb
                                 Bool.eqb andb]. lra. }
  assert (H3 : Hydropathicity_value_calc (lit "VLI") 100 Linear_Variation
               = Return 4.167%R).
  { change (lit "VLI") with ["V"; "L"; "I"]%char.
    rewrite (@value_calc_flat_3 "V" "L" "I" 4167).
    - f_equal; lra.
    - unfold in_scale. repeat constructor; simpl; tauto.
    - unfold scale_value. cbn [dict_get Kyte_Doolittle_scale Ascii.eqb
                                 Bool.eqb andb]. lra. }
  split; [| split; [| split]].
  - change (model_weights Linear_Variation 100 3)
      with (Return (linear_weights 100 3)).
    now rewrite linear_weights_flat_3.
  - unfold Hydropathicity_array_gen.
    change (np_arange (3 / 2) (len (lit "GAVLI") - 3 / 2))
      with [1; 2; 3]%Z.
    cbn [scan].
    change (window (lit "GAVLI") 3 1) with (lit "GAV").
    change (window (lit "GAVLI") 3 2) with (lit "AVL").
    change (window (lit "GAVLI") 3 3) with (lit "VLI").
    rewrite H1. cbn [bind]. rewrite H2. cbn [bind]. rewrite H3. cbn [bind].
    reflexivity.
  - change (window (lit "GAVLI") 3 1) with (lit "GAV").
    rewrite H1, Hround. reflexivity.
  - exact Hround.
Qed.

(** * The weight vectors of both models *)

Lemma exp_le (x y : R) : (x <= y)%R -> (exp x <= exp y)%R.
Proof.
  intros [Hlt | ->]; [left; now apply exp_increasing | right; reflexivity].
Qed.

Lemma ln_le_100 (e : R) : (0 < e <= 100)%R -> (ln e <= ln 100)%R.
Proof.
  intros [Hpos [Hlt | ->]];
    [left; now apply ln_increasing | right; reflexivity].
Qed.

Lemma odd_half (n : nat) : Nat.odd n = true -> 2 * (n / 2) + 1 = n.
Proof.
  intros H. apply Nat.odd_spec in H. destruct H as [m ->].
  replace (2 * m + 1) with (1 + m * 2) by lia.
  rewrite Nat.div_add by lia. simpl. lia.
Qed.

Lemma linear_weights_200_3 : linear_weights 200 3 = [200; 100; 200]%R.
Proof.
  unfold linear_weights, np_linspace, center_weight.
  cbn [Nat.div Nat.divmod fst Nat.add seq map tl app Nat.sub INR].
  repeat f_equal; lra.
Qed.

Lemma exp_half_sum (a b : R) :
  (0 < a)%R -> (0 < b)%R -> exp ((ln a + ln b) / 2) = sqrt (a * b).
Proof.
  intros Ha Hb.
  assert (Hsq : (exp ((ln a + ln b) / 2) * exp ((ln a + ln b) / 2) = a * b)%R).
  { rewrite <- exp_plus.
    replace ((ln a + ln b) / 2 + (ln a + ln b) / 2)%R with (ln a + ln b)%R
      by field.
    now rewrite exp_plus, !exp_ln. }
  rewrite <- Hsq. symmetry. apply sqrt_square. left. apply exp_pos.
Qed.

Lemma geomspace_50_2 :
  np_geomspace 50 center_weight (3 / 2 + 1) = Return [50; 100]%R.
Proof.
  unfold np_geomspace, center_weight.
  destruct (Req_dec_T 50 0) as [E | _]; [lra |].
  destruct (Req_dec_T 100 0) as [E | _]; [lra |].
  unfold np_linspace.
  cbn [Nat.div Nat.divmod fst Nat.add seq map Nat.sub INR].
  replace (ln 50 + 0 * ((ln 100 - ln 50) / 1))%R with (ln 50) by field.
  replace (ln 50 + 1 * ((ln 100 - ln 50) / 1))%R with (ln 100) by field.
  rewrite !exp_ln by lra. reflexivity.
Qed.

Lemma exponential_weights_50_3 :
  exponential_weights 50 3 = Return [50; 100; 50]%R.
Proof.
  rewrite exponential_weights_ramp by lra.
  unfold ramp, np_linspace, center_weight.
  cbn [Nat.div Nat.divmod fst Nat.add seq map tl app Nat.sub INR].
  replace (ln 50 + 0 * ((ln 100 - ln 50) / 1))%R with (ln 50) by field.
  replace (ln 50 + 1 * ((ln 100 - ln 50) / 1))%R with (ln 100) by field.
  replace (ln 100 + 1 * ((ln 50 - ln 100) / 1))%R with (ln 50) by field.
  rewrite !exp_ln by lra. reflexivity.
Qed.

Lemma geomspace_50_3 :
  np_geomspace 50 center_weight (5 / 2 + 1) = Return [50; sqrt 5000; 100]%R.
Proof.
  unfold np_geomspace, center_weight.
  destruct (Req_dec_T 50 0) as [E | _]; [lra |].
  destruct (Req_dec_T 100 0) as [E | _]; [lra |].
  unfold np_linspace.
  cbn [Nat.div Nat.divmod fst Nat.add seq map Nat.sub INR].
  replace (ln 50 + 0 * ((ln 100 - ln 50) / (1 + 1)))%R with (ln 50) by field.
  replace (ln 50 + 1 * ((ln 100 - ln 50) / (1 + 1)))%R
    with ((ln 50 + ln 100) / 2)%R by field.
  replace (ln 50 + (1 + 1) * ((ln 100 - ln 50) / (1 + 1)))%R
    with (ln 100) by field.
  rewrite exp_half_sum, !exp_ln by lra.
  now replace (50 * 100)%R with 5000%R by lra.
Qed.

Lemma exponential_weights_50_5 :
  exponential_weights 50 5
  = Return [50; sqrt 5000; 100; sqrt 5000; 50]%R.
Proof.
  rewrite exponential_weights_ramp by lra.
  unfold ramp, np_linspace, center_weight.
  cbn [Nat.div Nat.divmod fst Nat.add seq map tl app Nat.sub INR].
  replace (ln 50 + 0 * ((ln 100 - ln 50) / (1 + 1)))%R with (ln 50) by field.
  replace (ln 50 + 1 * ((ln 100 - ln 50) / (1 + 1)))%R
    with ((ln 50 + ln 100) / 2)%R by field.
  replace (ln 50 + (1 + 1) * ((ln 100 - ln 50) / (1 + 1)))%R
    with (ln 100) by field.
  replace (ln 100 + 1 * ((ln 50 - ln 100) / (1 + 1)))%R
    with ((ln 50 + ln 100) / 2)%R by field.
  replace (ln 100 + (1 + 1) * ((ln 50 - ln 100) / (1 + 1)))%R
    with (ln 50) by field.
  rewrite exp_half_sum, !exp_ln by lra.
  now replace (50 * 100)%R with 5000%R by lra.
Qed.

Lemma sqrt_5000_bounds : (70.71 < sqrt 5000 < 70.72)%R.
Proof.
  split.
  - rewrite <- (sqrt_square 70.71) at 1 by lra. apply sqrt_lt_1; lra.
  - rewrite <- (sqrt_square 70.72) at 1 by lra. apply sqrt_lt_1; lra.
Qed.

(** C8, as the code has it.  With edge weight 50 in the exponential model,
    window size 3 has the rising half [50, 100] and the weights
    [50, 100, 50]; the geometric mean of 50 and 100, about 70.71, is the
    inner entry for window size 5, whose rising half is
    [50, sqrt 5000, 100], with equal consecutive ratios, and whose weights
    are [50, sqrt 5000, 100, sqrt 5000, 50]. *)
Theorem exponential_weights_edge_50 :
  np_geomspace 50 center_weight (3 / 2 + 1) = Return [50; 100]%R
  /\ model_weights Exponential_Variation 50 3 = Return [50; 100; 50]%R
  /\ np_geomspace 50 center_weight (5 / 2 + 1)
     = Return [50; sqrt 5000; 100]%R
  /\ model_weights Exponential_Variation 50 5
     = Return [50; sqrt 5000; 100; sqrt 5000; 50]%R
  /\ (70.71 < sqrt 5000 < 70.72)%R
  /\ (sqrt 5000 / 50 = 100 / sqrt 5000)%R.
Proof.
  split; [exact geomspace_50_2 |].
  split; [exact exponential_weights_50_3 |].
  split; [exact geomspace_50_3 |].
  split; [exact exponential_weights_50_5 |].
  split; [exact sqrt_5000_bounds |].
  pose proof sqrt_5000_bounds as Hb.
  assert (Hsq : (sqrt 5000 * sqrt 5000 = 5000)%R) by (apply sqrt_sqrt; lra).
  field_simplify_eq; [lra | lra].
Qed.

(** C8, as stated, fails: for window size 3 the rising half has two entries,
    not three, and the weight vector ends on the edge weight 50, not on
    100. *)
Lemma exponential_weights_50_3_not_rising :
  exponential_weights 50 3 = Return [50; 100; 50]%R
  /\ (forall x, np_geomspace 50 center_weight (3 / 2 + 1)
                <> Return [50; x; 100]%R)
  /\ (forall x, model_weights Exponential_Variation 50 3
                <> Return [50; x; 100]%R).
Proof.
  split; [exact exponential_weights_50_3 |]. split.
  - intros x H. rewrite geomspace_50_2 in H. discriminate H.
  - intros x H.
    change (model_weights Exponential_Variation 50 3)
      with (exponential_weights 50 3) in H.
    rewrite exponential_weights_50_3 in H.
    injection H as H1 H2. lra.
Qed.

(** * Unknown residues *)

Lemma window_in_scale_dec (AA_seq : str) (W p : Z) :
  {Forall in_scale (window AA_seq W p)}
  + {~ Forall in_scale (window AA_seq W p)}.
Proof. apply Forall_dec, in_scale_dec. Qed.

(** C4, as the code has it.  When the weights can be built, a segment with a
    symbol outside the scale makes the calculator raise the [KeyError] of
    its first such symbol (no score is substituted, and the error carries
    the symbol only); and when some scored window of a sequence has such a
    symbol, the profile builder raises the very [KeyError] the calculator
    raised on a window of the range, and returns no profile. *)
Theorem unknown_residue_KeyError (AA_seq : str) (Window_size : Z)
  (EDGE_weight : R) (model : string) :
  weights_defined model EDGE_weight ->
  (forall (pre post : str) (AA : ascii),
      Forall in_scale pre -> ~ in_scale AA ->
      Hydropathicity_value_calc (pre ++ AA :: post) EDGE_weight model
      = Raise (KeyError AA))
  /\ (forall p,
        In p (np_arange (Window_size / 2)
                (len AA_seq - Window_size / 2)) ->
        ~ Forall in_scale (window AA_seq Window_size p) ->
        exists q AA,
          In q (np_arange (Window_size / 2)
                  (len AA_seq - Window_size / 2))
          /\ In AA (window AA_seq Window_size q)
          /\ ~ in_scale AA
          /\ Hydropathicity_value_calc (window AA_seq Window_size q)
               EDGE_weight model = Raise (KeyError AA)
          /\ Hydropathicity_array_gen AA_seq Window_size EDGE_weight model
             = Raise (KeyError AA)).
Proof.
  intros Hdef. split.
  - intros pre post AA Hpre HAA. now apply value_calc_KeyError.
  - intros p Hp Hbad.
    destruct (@first_failing Z
                (fun q => Forall in_scale (window AA_seq Window_size q))
                (window_in_scale_dec AA_seq Window_size)
                (np_arange (Window_size / 2)
                   (len AA_seq - Window_size / 2)))
      as [Hall | [before [q [after [Hsplit [Hbefore Hq]]]]]].
    { rewrite Forall_forall in Hall. elim Hbad. now apply Hall. }
    destruct (@first_failing ascii in_scale in_scale_dec
                (window AA_seq Window_size q))
      as [Hall | [pre [AA [post [Hwin [Hpre HAA]]]]]]; [contradiction |].
    assert (Hraise : Hydropathicity_value_calc (window AA_seq Window_size q)
                       EDGE_weight model = Raise (KeyError AA))
      by (rewrite Hwin; now apply value_calc_KeyError).
    exists q, AA. split; [| split; [| split; [| split]]].
    + rewrite Hsplit. apply in_or_app. right. now left.
    + rewrite Hwin. apply in_or_app. right. now left.
    + exact HAA.
    + exact Hraise.
    + unfold Hydropathicity_array_gen. rewrite Hsplit.
      rewrite (@scan_Raise AA_seq Window_size EDGE_weight model before after
                 q (KeyError AA)); [reflexivity | | exact Hraise].
      apply Forall_forall. intros r Hr.
      rewrite Forall_forall in Hbefore.
      destruct (@value_calc_score (window AA_seq Window_size r) EDGE_weight
                  model (Hbefore r Hr) Hdef) as [w [_ Hv]].
      eauto.
Qed.

Lemma unknown_residue_KeyError_witness :
  (forall (pre post : str) (AA : ascii),
      Forall in_scale pre -> ~ in_scale AA ->
      Hydropathicity_value_calc (pre ++ AA :: post) 100 Linear_Variation
      = Raise (KeyError AA))
  /\ (forall p,
        In p (np_arange (3 / 2) (len (lit "GAXLI") - 3 / 2)) ->
        ~ Forall in_scale (window (lit "GAXLI") 3 p) ->
        exists q AA,
          In q (np_arange (3 / 2) (len (lit "GAXLI") - 3 / 2))
          /\ In AA (window (lit "GAXLI") 3 q)
          /\ ~ in_scale AA
          /\ Hydropathicity_value_calc (window (lit "GAXLI") 3 q)
               100 Linear_Variation = Raise (KeyError AA)
          /\ Hydropathicity_array_gen (lit "GAXLI") 3 100 Linear_Variation
             = Raise (KeyError AA)).
Proof.
  apply (@unknown_residue_KeyError (lit "GAXLI") 3 100 Linear_Variation).
  left. reflexivity.
Defined.

Lemma not_in_scale_X : ~ in_scale "X"%char.
Proof.
  unfold in_scale. simpl. intros H.
  repeat (destruct H as [H | H]; [discriminate H |]). exact H.
Qed.

(** C4, as stated, fails: the error does not tell the position.  "XG" and
    "GX" have their unknown symbol at positions 0 and 1, and raise the same
    error. *)
Lemma KeyError_carries_no_position :
  Hydropathicity_value_calc (lit "XG") 100 Linear_Variation
  = Raise (KeyError "X")
  /\ Hydropathicity_value_calc (lit "GX") 100 Linear_Variation
     = Raise (KeyError "X")
  /\ ~ error_locates_residue.
Proof.
  assert (Hdef : weights_defined Linear_Variation 100) by (left; reflexivity).
  assert (HG : Forall in_scale (lit "G"))
    by (unfold in_scale; repeat constructor; simpl; tauto).
  assert (H0 : Hydropathicity_value_calc (lit "XG") 100 Linear_Variation
               = Raise (KeyError "X")).
  { apply (@value_calc_KeyError [] (lit "G") "X" 100 Linear_Variation);
      [constructor | exact not_in_scale_X | exact Hdef]. }
  assert (H1 : Hydropathicity_value_calc (lit "GX") 100 Linear_Variation
               = Raise (KeyError "X")).
  { apply (@value_calc_KeyError (lit "G") [] "X" 100 Linear_Variation);
      [exact HG | exact not_in_scale_X | exact Hdef]. }
  split; [exact H0 |]. split; [exact H1 |].
  intros [position_of Hpos].
  pose proof (Hpos [] (lit "G") "X"%char (KeyError "X")
                (Forall_nil _) not_in_scale_X H0) as P0.
  pose proof (Hpos (lit "G") [] "X"%char (KeyError "X")
                HG not_in_scale_X H1) as P1.
  simpl in P0, P1. congruence.
Qed.

(** * The sequence preview *)

Lemma py_slice_nonneg (s : str) (lo hi : Z) :
  (0 <= lo <= hi)%Z ->
  py_slice s lo hi = firstn (Z.to_nat (hi - lo)) (skipn (Z.to_nat lo) s).
Proof.
  intros [Hlo Hhi]. unfold py_slice, slice_bound, len.
  destruct (Z.ltb_spec lo 0) as [H | _]; [lia |].
  destruct (Z.ltb_spec hi 0) as [H | _]; [lia |].
  destruct (Z.le_gt_cases hi (Z.of_nat (length s))) as [Hin | Hout].
  - rewrite !Z.min_l by lia. reflexivity.
  - rewrite (Z.min_r hi) by lia.
    destruct (Z.le_gt_cases lo (Z.of_nat (length s))) as [Hlo' | Hlo'].
    + rewrite Z.min_l by lia.
      rewrite !firstn_all2 by (rewrite length_skipn; lia). reflexivity.
    + rewrite Z.min_r by lia.
      rewrite (skipn_all2 (n := Z.to_nat lo)) by lia.
      now rewrite Z.sub_diag, firstn_nil.
Qed.

Lemma preview_loop_map (Seq : str) (indices : list Z) (output : list str) :
  preview_loop Seq indices output
  = output
    ++ map (fun index =>
              if (index mod 60 =? 0)%Z
              then newline :: py_slice Seq index (index + 10)
              else py_slice Seq index (index + 10)) indices.
Proof.
  revert output. induction indices as [| index rest IH]; intros output.
  - simpl. now rewrite app_nil_r.
  - cbn [preview_loop map].
    destruct (index mod 60 =? 0)%Z; cbn [negb]; rewrite IH, <- app_assoc;
      reflexivity.
Qed.

Lemma py_range_tens (n : nat) :
  py_range 0 (Z.of_nat n) 10
  = map (fun k => (Z.of_nat k * 10)%Z) (seq 0 ((n + 9) / 10)).
Proof.
  unfold py_range.
  replace (Z.to_nat ((Z.of_nat n - 0 + 10 - 1) / 10)) with ((n + 9) / 10).
  - apply map_ext. intros k. lia.
  - replace (Z.of_nat n - 0 + 10 - 1)%Z with (Z.of_nat (n + 9)) by lia.
    change 10%Z with (Z.of_nat 10).
    now rewrite <- Nat2Z.inj_div, Nat2Z.id.
Qed.

Lemma tens_succ (n : nat) : 1 <= n -> (n + 9) / 10 = S ((n - 10 + 9) / 10).
Proof.
  intros Hn. destruct (Nat.le_gt_cases 10 n) as [Hge | Hlt].
  - replace (n + 9) with ((n - 10 + 9) + 1 * 10) by lia.
    rewrite Nat.div_add by lia. lia.
  - replace (n - 10) with 0 by lia.
    replace (n + 9) with ((n - 1) + 1 * 10) by lia.
    rewrite Nat.div_add by lia.
    rewrite (Nat.div_small (n - 1)) by lia. reflexivity.
Qed.

Lemma groups_of_ten_bounded (n : nat) :
  forall s : str, length s <= n ->
    groups_of_ten s
    = map (fun k => firstn 10 (skipn (10 * k) s))
        (seq 0 ((length s + 9) / 10)).
Proof.
  induction n as [| n IH]; intros s Hs.
  - destruct s as [| c s]; [reflexivity | simpl in Hs; lia].
  - destruct s as [| c s']; [reflexivity |].
    rewrite groups_of_ten_equation_2.
    remember (c :: s') as l eqn:Hl.
    assert (Hlen : 1 <= length l) by (subst l; simpl; lia).
    rewrite IH by (rewrite length_skipn; lia).
    rewrite (tens_succ Hlen), length_skipn.
    cbn [seq map]. rewrite <- seq_shift, map_map. f_equal.
    apply map_ext. intros k. rewrite skipn_skipn. do 2 f_equal. lia.
Qed.

Lemma groups_of_ten_map (s : str) :
  groups_of_ten s
  = map (fun k => firstn 10 (skipn (10 * k) s))
      (seq 0 ((length s + 9) / 10)).
Proof. now apply (@groups_of_ten_bounded (length s)). Qed.

Lemma break_lines_map (breaks : nat -> bool) (f : nat -> str) (m k : nat) :
  break_lines breaks k (map f (seq k m))
  = map (fun i => if breaks i then newline :: f i else f i) (seq k m).
Proof.
  revert k. induction m as [| m IH]; intros k; [reflexivity |].
  cbn [seq map break_lines]. now rewrite IH.
Qed.

Lemma index_multiple_of_60 (k : nat) :
  ((Z.of_nat k * 10) mod 60 =? 0)%Z = at_multiple_of_60 k.
Proof.
  unfold at_multiple_of_60.
  replace (Z.of_nat k * 10)%Z with (Z.of_nat (10 * k)) by lia.
  change 60%Z with (Z.of_nat 60). rewrite <- Nat2Z.inj_mod.
  destruct (Nat.eqb_spec ((10 * k) mod 60) 0) as [E | N].
  - rewrite E. reflexivity.
  - apply Z.eqb_neq. lia.
Qed.

(** C9, as the code has it.  The preview is the sequence cut into groups of
    ten symbols joined by four spaces, with a line break in front of every
    group that starts at a residue index that is a multiple of 60: index 0
    included, so that the preview of a non-empty sequence starts with a line
    break. *)
Theorem Preview_Sequence_layout (Seq : str) :
  Preview_Sequence Seq = preview_layout at_multiple_of_60 Seq.
Proof.
  unfold Preview_Sequence, preview_layout, len. f_equal.
  rewrite preview_loop_map, py_range_tens, groups_of_ten_map.
  rewrite break_lines_map, map_map. cbn [app].
  apply map_ext. intros k.
  rewrite index_multiple_of_60.
  rewrite py_slice_nonneg by lia.
  replace (Z.to_nat (Z.of_nat k * 10 + 10 - Z.of_nat k * 10)) with 10 by lia.
  replace (Z.to_nat (Z.of_nat k * 10)) with (10 * k) by lia.
  reflexivity.
Qed.

(** C9, as stated, fails on every non-empty sequence: index 0 is a multiple
    of 60 for the code, which starts the preview of "A" with a line
    break. *)
Lemma preview_starts_with_line_break :
  Preview_Sequence (lit "A") = [newline; "A"%char]
  /\ preview_layout at_positive_multiple_of_60 (lit "A") = ["A"%char]
  /\ Preview_Sequence (lit "A")
     <> preview_layout at_positive_multiple_of_60 (lit "A").
Proof.
  assert (H1 : Preview_Sequence (lit "A") = [newline; "A"%char])
    by reflexivity.
  assert (H2 : preview_layout at_positive_multiple_of_60 (lit "A")
               = ["A"%char]).
  { unfold preview_layout. rewrite groups_of_ten_map. reflexivity. }
  split; [exact H1 |]. split; [exact H2 |].
  rewrite H1, H2. discriminate.
Qed.

(** * The FASTA parser *)

Lemma py_split_nonempty (sep : ascii) (s : str) : py_split sep s <> [].
Proof.
  induction s as [| c s IH]; simpl; [discriminate |].
  destruct (Ascii.eqb c sep); [discriminate |].
  destruct (py_split sep s); [discriminate | discriminate].
Qed.

Lemma py_split_no_sep (sep : ascii) (s : str) :
  ~ In sep s -> py_split sep s = [s].
Proof.
  induction s as [| c s IH]; intros Hs; [reflexivity |].
  cbn [py_split]. destruct (Ascii.eqb_spec c sep) as [E | N].
  - elim Hs. now left.
  - rewrite IH; [reflexivity |]. intros H. apply Hs. now right.
Qed.

Lemma py_split_at_first (sep : ascii) (head rest : str) :
  ~ In sep head ->
  py_split sep (head ++ sep :: rest) = head :: py_split sep rest.
Proof.
  induction head as [| c head IH]; intros Hh.
  - cbn [app py_split]. now rewrite Ascii.eqb_refl.
  - cbn [app py_split]. destruct (Ascii.eqb_spec c sep) as [E | N].
    + elim Hh. now left.
    + rewrite IH; [reflexivity |]. intros H. apply Hh. now right.
Qed.

Lemma str_join_empty_concat (parts : list str) :
  str_join [] parts = concat parts.
Proof.
  induction parts as [| p rest IH]; [reflexivity |].
  cbn [str_join concat]. destruct rest as [| q rest'].
  - simpl. now rewrite app_nil_r.
  - rewrite IH. reflexivity.
Qed.

Lemma concat_py_split (sep : ascii) (s : str) :
  concat (py_split sep s) = filter (fun c => negb (Ascii.eqb c sep)) s.
Proof.
  induction s as [| c s IH]; [reflexivity |].
  cbn [py_split filter]. destruct (Ascii.eqb c sep); cbn [negb].
  - exact IH.
  - rewrite <- IH. pose proof (py_split_nonempty sep s) as Hne.
    destruct (py_split sep s) as [| piece pieces]; [now elim Hne |].
    reflexivity.
Qed.

(** A text splits at its first separator, if it has one. *)
Lemma first_separator (sep : ascii) (s : str) :
  ~ In sep s
  \/ exists head rest, s = head ++ sep :: rest /\ ~ In sep head.
Proof.
  destruct (@first_failing ascii (fun c => c <> sep)
              (fun c => match ascii_dec c sep with
                        | left E => right (fun H => H E)
                        | right N => left N
                        end) s)
    as [Hall | [head [c [rest [-> [Hhead Hc]]]]]].
  - left. rewrite Forall_forall in Hall. intros H. now apply (Hall sep H).
  - right. destruct (ascii_dec c sep) as [-> | N]; [| now elim Hc].
    exists head, rest. split; [reflexivity |].
    rewrite Forall_forall in Hhead. intros H. now apply (Hhead sep H).
Qed.

Lemma startswith_gt (s : str) :
  startswith s (lit ">") = true <-> exists rest, s = ">"%char :: rest.
Proof.
  destruct s as [| c s].
  - split; [discriminate | intros [rest H]; discriminate H].
  - change (startswith (c :: s) (lit ">")) with (Ascii.eqb c ">" && true).
    rewrite andb_true_r. split.
    + intros H. apply Ascii.eqb_eq in H. subst c. now exists s.
    + intros [rest H]. injection H as -> _. apply Ascii.eqb_refl.
Qed.

Lemma FASTA_Parser_no_start (FASTA_seq : str) :
  startswith FASTA_seq (lit ">") = false -> FASTA_Parser FASTA_seq = Int (-1).
Proof. intros H. unfold FASTA_Parser. now rewrite H. Qed.

Lemma FASTA_Parser_one_line (FASTA_seq : str) :
  ~ In newline FASTA_seq -> FASTA_Parser FASTA_seq = Int (-1).
Proof.
  intros H. unfold FASTA_Parser.
  destruct (startswith FASTA_seq (lit ">")); [| reflexivity].
  now rewrite py_split_no_sep.
Qed.

Lemma FASTA_Parser_lines (header body : str) :
  ~ In newline header ->
  FASTA_Parser (">"%char :: header ++ newline :: body)
  = Str (filter not_newline body).
Proof.
  intros Hheader. unfold FASTA_Parser.
  replace (startswith (">"%char :: header ++ newline :: body) (lit ">"))
    with true by (symmetry; apply startswith_gt; eauto).
  cbn [negb].
  change (">"%char :: header ++ newline :: body)
    with ((">"%char :: header) ++ newline :: body).
  rewrite (@py_split_at_first newline (">"%char :: header) body).
  - pose proof (py_split_nonempty newline body) as Hne.
    destruct (py_split newline body) as [| q qs] eqn:Hsplit;
      [now elim Hne |].
    cbn [length skipn].
    destruct (Z.ltb_spec (Z.of_nat (S (S (length qs)))) 2) as [Hlt | _];
      [lia |].
    f_equal. change (lit "") with (@nil ascii).
    rewrite str_join_empty_concat, <- Hsplit. apply concat_py_split.
  - intros [H | H]; [discriminate H | contradiction].
Qed.

(** Every text is of one of the three kinds the parser tells apart. *)
Lemma FASTA_text_cases (FASTA_seq : str) :
  startswith FASTA_seq (lit ">") = false
  \/ ~ In newline FASTA_seq
  \/ exists header body,
       FASTA_seq = ">"%char :: header ++ newline :: body
       /\ ~ In newline header.
Proof.
  destruct (startswith FASTA_seq (lit ">")) eqn:Hstart; [| now left].
  right. apply startswith_gt in Hstart. destruct Hstart as [rest ->].
  destruct (first_separator newline rest)
    as [Hno | [header [body [-> Hheader]]]].
  - left. intros [H | H]; [discriminate H | contradiction].
  - right. now exists header, body.
Qed.

(** X1.  [FASTA_Parser] answers [-1] exactly for a text that does not start
    with ">" or has no line break; in every other case it answers a
    string. *)
Theorem FASTA_Parser_rejects (FASTA_seq : str) :
  (FASTA_Parser FASTA_seq = Int (-1)
   <-> (startswith FASTA_seq (lit ">") = false \/ ~ In newline FASTA_seq))
  /\ (FASTA_Parser FASTA_seq <> Int (-1) ->
      exists AA_seq, FASTA_Parser FASTA_seq = Str AA_seq).
Proof.
  destruct (FASTA_text_cases FASTA_seq)
    as [H | [H | [header [body [-> Hheader]]]]].
  - pose proof (@FASTA_Parser_no_start FASTA_seq H) as Hminus.
    split; [split; [now left | intros _; exact Hminus] | contradiction].
  - pose proof (@FASTA_Parser_one_line FASTA_seq H) as Hminus.
    split; [split; [now right | intros _; exact Hminus] | contradiction].
  - pose proof (@FASTA_Parser_lines header body Hheader) as Hstr.
    assert (Hstart : startswith (">"%char :: header ++ newline :: body)
                       (lit ">") = true)
      by (apply startswith_gt; eauto).
    split.
    + split.
      * intros Hminus. rewrite Hstr in Hminus. discriminate Hminus.
      * intros [H | H]; [rewrite Hstart in H; discriminate H |].
        elim H. right. apply in_or_app. right. now left.
    + intros _. rewrite Hstr. eauto.
Qed.

(** X2.  On a text that starts with ">" and has a line break, [FASTA_Parser]
    drops the first line and returns the rest with its line breaks removed,
    and nothing else removed. *)
Theorem FASTA_Parser_body (header body : str) :
  ~ In newline header ->
  FASTA_Parser (">"%char :: header ++ newline :: body)
  = Str (filter not_newline body).
Proof. apply FASTA_Parser_lines. Qed.

Lemma FASTA_Parser_body_witness :
  FASTA_Parser (">"%char :: lit "sp|P1" ++ newline :: lit "GAV")
  = Str (filter not_newline (lit "GAV")).
Proof.
  apply (@FASTA_Parser_body (lit "sp|P1") (lit "GAV")).
  simpl. intros H.
  repeat (destruct H as [H | H]; [discriminate H |]). exact H.
Defined.

(** X3.  Whatever [FASTA_Parser] returns is [-1] or a string without line
    breaks: the text after the first line, line breaks removed. *)
Theorem FASTA_Parser_result (FASTA_seq : str) :
  FASTA_Parser FASTA_seq = Int (-1)
  \/ exists header body,
       FASTA_seq = ">"%char :: header ++ newline :: body
       /\ ~ In newline header
       /\ FASTA_Parser FASTA_seq = Str (filter not_newline body)
       /\ ~ In newline (filter not_newline body).
Proof.
  destruct (FASTA_text_cases FASTA_seq)
    as [H | [H | [header [body [-> Hheader]]]]].
  - left. now apply FASTA_Parser_no_start.
  - left. now apply FASTA_Parser_one_line.
  - right. exists header, body. split; [reflexivity |].
    split; [exact Hheader |]. split; [now apply FASTA_Parser_lines |].
    intros H. apply filter_In in H. destruct H as [_ H].
    unfold not_newline in H. now rewrite Ascii.eqb_refl in H.
Qed.

Lemma filter_all (A : Type) (p : A -> bool) (l : list A) :
  Forall (fun x => p x = true) l -> filter p l = l.
Proof.
  induction 1 as [| x l Hx _ IH]; [reflexivity |].
  cbn [filter]. now rewrite Hx, IH.
Qed.

Lemma filter_str_join (p : ascii -> bool) (sep : str) (parts : list str) :
  filter p sep = [] ->
  filter p (str_join sep parts) = concat (map (filter p) parts).
Proof.
  intros Hsep. induction parts as [| q rest IH]; [reflexivity |].
  cbn [str_join map concat]. destruct rest as [| r rest'].
  - simpl. now rewrite app_nil_r.
  - rewrite !filter_app, Hsep, IH. reflexivity.
Qed.

Lemma not_newline_all (s : str) :
  ~ In newline s -> Forall (fun c => not_newline c = true) s.
Proof.
  intros Hs. apply Forall_forall. intros c Hc. unfold not_newline.
  destruct (Ascii.eqb_spec c newline) as [E | N]; [| reflexivity].
  subst c. contradiction.
Qed.

(** X4.  A FASTA text written as a header line and sequence lines parses
    back to the sequence lines put end to end. *)
Theorem FASTA_Parser_round_trip (header line : str) (lines : list str) :
  ~ In newline header ->
  Forall (fun l => ~ In newline l) (line :: lines) ->
  FASTA_Parser
    (str_join [newline] ((">"%char :: header) :: line :: lines))
  = Str (concat (line :: lines)).
Proof.
  intros Hheader Hlines.
  change (str_join [newline] ((">"%char :: header) :: line :: lines))
    with (">"%char :: header
          ++ newline :: str_join [newline] (line :: lines)).
  rewrite FASTA_Parser_lines by assumption. f_equal.
  rewrite filter_str_join by reflexivity. f_equal.
  rewrite <- (map_id (line :: lines)) at 2.
  apply map_ext_in. intros l Hl. apply filter_all, not_newline_all.
  rewrite Forall_forall in Hlines. now apply Hlines.
Qed.

Lemma FASTA_Parser_round_trip_witness :
  FASTA_Parser
    (str_join [newline]
       ((">"%char :: lit "P1") :: lit "GAV" :: [lit "LI"]))
  = Str (concat (lit "GAV" :: [lit "LI"])).
Proof.
  apply (@FASTA_Parser_round_trip (lit "P1") (lit "GAV") [lit "LI"]).
  - simpl. intros H.
    repeat (destruct H as [H | H]; [discriminate H |]). exact H.
  - repeat constructor; simpl; intros H;
      repeat (destruct H as [H | H]; [discriminate H |]); exact H.
Defined.

(** * More on the windowed score *)

(** ** Sums *)

Lemma sum_over_S (n : nat) (f : nat -> R) :
  sum_over (S n) f = (f 0%nat + sum_over n (fun i => f (S i)))%R.
Proof.
  unfold sum_over. cbn [seq map fold_right].
  now rewrite <- seq_shift, map_map.
Qed.

Lemma sum_over_ext (n : nat) (f g : nat -> R) :
  (forall i, i < n -> f i = g i) -> sum_over n f = sum_over n g.
Proof.
  intros H. unfold sum_over. f_equal. apply map_ext_in.
  intros i Hi. apply in_seq in Hi. apply H. lia.
Qed.

Lemma sum_over_le (n : nat) (f g : nat -> R) :
  (forall i, i < n -> (f i <= g i)%R) -> (sum_over n f <= sum_over n g)%R.
Proof.
  revert f g. induction n as [| n IH]; intros f g H.
  - unfold sum_over. simpl. lra.
  - rewrite !sum_over_S.
    assert (f 0%nat <= g 0%nat)%R by (apply H; lia).
    assert (sum_over n (fun i => f (S i)) <= sum_over n (fun i => g (S i)))%R
      by (apply IH; intros i Hi; apply H; lia).
    lra.
Qed.

Lemma sum_over_scaled (n : nat) (c : R) (f : nat -> R) :
  sum_over n (fun i => (c * f i)%R) = (c * sum_over n f)%R.
Proof. unfold sum_over. apply fold_right_scaled. Qed.

Lemma sum_over_const (n : nat) (c : R) :
  sum_over n (fun _ => c) = (INR n * c)%R.
Proof.
  induction n as [| n IH].
  - unfold sum_over. simpl. lra.
  - rewrite sum_over_S, IH, S_INR. lra.
Qed.

Lemma sum_over_firstn (weights : list R) (n : nat) :
  n <= length weights ->
  sum_over n (fun i => nth i weights 0%R)
  = fold_right Rplus 0%R (firstn n weights).
Proof.
  revert weights. induction n as [| n IH]; intros weights Hn.
  - reflexivity.
  - destruct weights as [| w rest]; [simpl in Hn; lia |].
    rewrite sum_over_S. cbn [nth firstn fold_right].
    rewrite IH by (simpl in Hn; lia). reflexivity.
Qed.

Lemma sum_over_all (weights : list R) :
  sum_over (length weights) (fun i => nth i weights 0%R)
  = fold_right Rplus 0%R weights.
Proof. rewrite sum_over_firstn by lia. now rewrite firstn_all. Qed.

Lemma fold_right_Rplus_app (l l' : list R) :
  fold_right Rplus 0%R (l ++ l')
  = (fold_right Rplus 0 l + fold_right Rplus 0 l')%R.
Proof. induction l as [| x l IH]; simpl; [lra | rewrite IH; lra]. Qed.

Lemma nonneg_sum (l : list R) :
  Forall (fun w => (0 < w)%R) l -> (0 <= fold_right Rplus 0 l)%R.
Proof. induction 1 as [| w l Hw _ IH]; simpl; lra. Qed.

Lemma sum_over_prefix_le (weights : list R) (n : nat) :
  Forall (fun w => (0 < w)%R) weights -> n <= length weights ->
  (0 <= sum_over n (fun i => nth i weights 0)
   <= fold_right Rplus 0 weights)%R.
Proof.
  intros Hpos Hn. rewrite sum_over_firstn by assumption.
  rewrite <- (firstn_skipn n weights) at 3.
  rewrite <- (firstn_skipn n weights) in Hpos.
  apply Forall_app in Hpos. destruct Hpos as [Hfirst Hskip].
  rewrite fold_right_Rplus_app.
  pose proof (nonneg_sum Hfirst). pose proof (nonneg_sum Hskip). lra.
Qed.

(** ** Weights *)

(** Every entry of a ramp is [f] at a point between the two ends. *)
Lemma ramp_nth_between (f : R -> R) (a b d : R) (h i : nat) :
  i < 2 * h + 1 ->
  exists t, (0 <= t <= 1)%R
            /\ nth i (ramp f a b h) d = f (a + t * (b - a))%R.
Proof.
  intros Hi. destruct h as [| h'].
  - assert (i = 0) by lia. subst i. exists 0%R. split; [lra |].
    rewrite ramp_nth_low by lia. f_equal. cbn [INR]. lra.
  - set (h := S h') in *.
    assert (Hh : (0 < INR h)%R) by (apply lt_0_INR; lia).
    destruct (Nat.le_gt_cases i h) as [Hle | Hgt].
    + exists (INR i / INR h)%R. split.
      * assert (0 <= INR i <= INR h)%R
          by (split; [apply pos_INR | now apply le_INR]).
        split.
        -- apply Rmult_le_pos; [lra | left; now apply Rinv_0_lt_compat].
        -- apply (Rmult_le_reg_r (INR h)); [lra |]. field_simplify; lra.
      * rewrite ramp_nth_low by assumption. f_equal. field. lra.
    + rewrite ramp_symmetric by lia.
      exists (INR (2 * h + 1 - 1 - i) / INR h)%R.
      assert (Hle : 2 * h + 1 - 1 - i <= h) by lia.
      split.
      * assert (0 <= INR (2 * h + 1 - 1 - i) <= INR h)%R
          by (split; [apply pos_INR | now apply le_INR]).
        split.
        -- apply Rmult_le_pos; [lra | left; now apply Rinv_0_lt_compat].
        -- apply (Rmult_le_reg_r (INR h)); [lra |]. field_simplify; lra.
      * rewrite ramp_nth_low by assumption. f_equal. field. lra.
Qed.

(** What [model_weights] can do: refuse a zero edge weight in the
    exponential model, or return [2 * (seq_len // 2) + 1] weights. *)
Lemma model_weights_cases (Model : string) (e : R) (n : nat) :
  (Model <> Linear_Variation /\ e = 0%R
   /\ model_weights Model e n = Raise ValueError)
  \/ exists weights,
       model_weights Model e n = Return weights
       /\ length weights = 2 * (n / 2) + 1
       /\ (Model <> Linear_Variation -> e <> 0%R).
Proof.
  unfold model_weights.
  destruct (String.eqb_spec Model Linear_Variation) as [E | N].
  - right. exists (linear_weights e n). split; [reflexivity |]. split.
    + rewrite linear_weights_ramp. apply ramp_length.
    + intros H. contradiction.
  - destruct (Req_dec_T e 0) as [-> | He].
    + left. split; [exact N |]. split; [reflexivity |].
      apply exponential_weights_zero.
    + right. rewrite exponential_weights_ramp by assumption.
      eexists. split; [reflexivity |]. split; [apply ramp_length |].
      intros _. exact He.
Qed.

Lemma model_weights_positive (Model : string) (e : R) (n : nat)
  (weights : list R) :
  (0 < e)%R -> model_weights Model e n = Return weights ->
  Forall (fun w => (0 < w)%R) weights.
Proof.
  intros He Hw.
  destruct (@model_weights_Return Model e n) as [w' [Hw' [Hlen [Hlin Hexp]]]];
    [right; exact He |].
  rewrite Hw in Hw'. injection Hw' as <-.
  apply Forall_forall. intros w Hin.
  apply (In_nth _ _ 0%R) in Hin. destruct Hin as [i [Hi <-]].
  rewrite Hlen in Hi.
  destruct (string_dec Model Linear_Variation) as [E | N].
  - rewrite (Hlin E), linear_weights_ramp.
    destruct (@ramp_nth_between (fun x => x) e center_weight 0%R (n / 2) i Hi)
      as [t [Ht ->]].
    unfold center_weight. nra.
  - rewrite (Hexp N).
    destruct (@ramp_nth_between exp (ln e) (ln center_weight) 0%R (n / 2) i Hi)
      as [t [Ht ->]].
    apply exp_pos.
Qed.

(** With edge weight 100 all the weights are 100, in both models. *)
Lemma model_weights_flat (Model : string) (n : nat) :
  model_weights Model 100 n = Return (repeat 100%R (2 * (n / 2) + 1)).
Proof.
  destruct (@model_weights_Return Model 100 n) as [w [Hw [Hlen [Hlin Hexp]]]];
    [right; lra |].
  rewrite Hw. f_equal. apply (nth_ext _ _ 0%R 0%R).
  - now rewrite repeat_length.
  - intros i Hi. rewrite Hlen in Hi. rewrite nth_repeat_lt by assumption.
    destruct (string_dec Model Linear_Variation) as [E | N].
    + rewrite (Hlin E), linear_weights_ramp.
      destruct (@ramp_nth_between (fun x => x) 100%R center_weight 0%R
                  (n / 2) i Hi) as [t [Ht ->]].
      unfold center_weight. lra.
    + rewrite (Hexp N).
      destruct (@ramp_nth_between exp (ln 100) (ln center_weight) 0%R
                  (n / 2) i Hi) as [t [Ht ->]].
      unfold center_weight.
      replace (ln 100 + t * (ln 100 - ln 100))%R with (ln 100) by lra.
      apply exp_ln. lra.
Qed.

(** ** Rounding and the range of the scale *)

Lemma rint_between (x : R) (lo hi : Z) :
  (IZR lo <= x <= IZR hi)%R -> (lo <= rint x <= hi)%Z.
Proof.
  intros [Hlo Hhi]. unfold rint.
  pose proof (base_Int_part x) as [Hf1 Hf2]. cbv zeta.
  generalize dependent (Int_part x). intros f Hf1 Hf2.
  assert (lo < f + 1)%Z by (apply lt_IZR; rewrite plus_IZR; lra).
  assert (f <= hi)%Z by (apply le_IZR; lra).
  destruct (Rlt_dec (x - IZR f) (1 / 2)) as [Hd | Hd]; [lia |].
  apply Rnot_lt_le in Hd.
  assert (f < hi)%Z by (apply lt_IZR; lra).
  destruct (Rlt_dec (1 / 2) (x - IZR f)); [lia |].
  destruct (Z.even f); lia.
Qed.

Lemma round3_between (x : R) (lo hi : Z) :
  (IZR lo / 1000 <= x <= IZR hi / 1000)%R ->
  (IZR lo / 1000 <= round3 x <= IZR hi / 1000)%R.
Proof.
  intros H. unfold round3.
  destruct (@rint_between (x * 1000) lo hi) as [H1 H2]; [lra |].
  apply IZR_le in H1, H2. lra.
Qed.

Lemma round3_thousandth (z : Z) : round3 (IZR z / 1000) = (IZR z / 1000)%R.
Proof. apply round3_nearest. lra. Qed.

Ltac each_symbol H :=
  unfold in_scale in H; simpl in H;
  repeat (destruct H as [H | H]; [subst | ]); [.. | contradiction].

Lemma scale_value_range (c : ascii) :
  in_scale c -> (-4.5 <= scale_value c <= 4.5)%R.
Proof.
  intros H. each_symbol H;
    unfold scale_value;
    cbn [dict_get Kyte_Doolittle_scale Ascii.eqb Bool.eqb andb]; lra.
Qed.

Lemma scale_value_tenths (c : ascii) :
  in_scale c -> exists z, scale_value c = (IZR z / 1000)%R.
Proof.
  intros H. each_symbol H;
    unfold scale_value;
    cbn [dict_get Kyte_Doolittle_scale Ascii.eqb Bool.eqb andb];
    first [ exists (-400)%Z; lra | exists 1800%Z; lra
          | exists 4200%Z; lra | exists 3800%Z; lra
          | exists 4500%Z; lra | exists (-1600)%Z; lra
          | exists 2500%Z; lra | exists 1900%Z; lra
          | exists (-800)%Z; lra | exists (-700)%Z; lra
          | exists (-3500)%Z; lra | exists 2800%Z; lra
          | exists (-1300)%Z; lra | exists (-900)%Z; lra
          | exists (-3900)%Z; lra | exists (-4500)%Z; lra
          | exists (-3200)%Z; lra ].
Qed.

Lemma in_scale_nth (segment : str) (i : nat) :
  Forall in_scale segment -> i < length segment ->
  in_scale (nth i segment zero).
Proof.
  intros Hscale Hi. rewrite Forall_forall in Hscale.
  apply Hscale. now apply nth_In.
Qed.

(** The quotient that is rounded stays in the range of the scale. *)
Lemma weighted_quotient_range (segment : str) (weights : list R) :
  Forall in_scale segment ->
  Forall (fun w => (0 < w)%R) weights ->
  length segment <= length weights ->
  (-4.5
   <= sum_over (length segment)
        (fun i => scale_value (nth i segment zero) * nth i weights 0)
      / fold_right Rplus 0 weights
   <= 4.5)%R.
Proof.
  intros Hscale Hpos Hlen.
  destruct (sum_over_prefix_le Hpos Hlen) as [Hpart0 Hpart].
  assert (Hw : forall i, i < length segment -> (0 < nth i weights 0)%R).
  { intros i Hi. rewrite Forall_forall in Hpos. apply Hpos.
    apply nth_In. lia. }
  assert (Hup : (sum_over (length segment)
                   (fun i => scale_value (nth i segment zero)
                             * nth i weights 0)
                 <= 4.5 * sum_over (length segment)
                            (fun i => nth i weights 0))%R).
  { rewrite <- sum_over_scaled. apply sum_over_le. intros i Hi.
    pose proof (scale_value_range (@in_scale_nth segment i Hscale Hi)).
    pose proof (Hw i Hi). nra. }
  assert (Hdown : (-4.5 * sum_over (length segment)
                             (fun i => nth i weights 0)
                   <= sum_over (length segment)
                        (fun i => scale_value (nth i segment zero)
                                  * nth i weights 0))%R).
  { rewrite <- sum_over_scaled. apply sum_over_le. intros i Hi.
    pose proof (scale_value_range (@in_scale_nth segment i Hscale Hi)).
    pose proof (Hw i Hi). nra. }
  generalize dependent (sum_over (length segment)
                          (fun i => (scale_value (nth i segment zero)
                                     * nth i weights 0)%R)).
  generalize dependent (sum_over (length segment)
                          (fun i => nth i weights 0%R)).
  generalize (fold_right Rplus 0%R weights).
  intros total part Hpart0 Hpart num Hup Hdown.
  destruct (Req_dec_T total 0) as [E | N].
  - rewrite E. unfold Rdiv. rewrite Rinv_0. lra.
  - assert (Htotal : (0 < total)%R) by lra.
    split.
    + apply (Rmult_le_reg_r total); [exact Htotal |].
      unfold Rdiv. rewrite Rmult_assoc, Rinv_l by exact N. nra.
    + apply (Rmult_le_reg_r total); [exact Htotal |].
      unfold Rdiv. rewrite Rmult_assoc, Rinv_l by exact N. nra.
Qed.

Lemma value_calc_range (segment : str) (Edge_weight : R)
  (Model : string) :
  Forall in_scale segment -> (0 < Edge_weight)%R ->
  exists v,
    Hydropathicity_value_calc segment Edge_weight Model = Return v
    /\ (-4.5 <= v <= 4.5)%R.
Proof.
  intros Hscale He.
  destruct (@value_calc_score segment Edge_weight Model Hscale)
    as [weights [Hw Hv]]; [right; exact He |].
  eexists. split; [exact Hv |].
  destruct (@model_weights_Return Model Edge_weight (length segment))
    as [w' [Hw' [Hlen _]]]; [right; exact He |].
  rewrite Hw in Hw'. injection Hw' as <-.
  unfold score_formula.
  replace (-4.5)%R with (IZR (-4500) / 1000)%R by lra.
  replace 4.5%R with (IZR 4500 / 1000)%R by lra.
  apply round3_between.
  replace (IZR (-4500) / 1000)%R with (-4.5)%R by lra.
  replace (IZR 4500 / 1000)%R with 4.5%R by lra.
  apply weighted_quotient_range.
  - exact Hscale.
  - exact (@model_weights_positive Model Edge_weight _ weights He Hw).
  - rewrite Hlen. apply half_window_covers.
Qed.

(** X5.  With a positive edge weight, in either model, the score of a
    segment over the scale's alphabet lies within the range of the scale,
    from -4.5 to 4.5. *)
Theorem value_calc_in_scale_range (segment : str) (Edge_weight : R)
  (Model : string) :
  Forall in_scale segment -> (0 < Edge_weight)%R ->
  exists v,
    Hydropathicity_value_calc segment Edge_weight Model = Return v
    /\ (-4.5 <= v <= 4.5)%R.
Proof. apply value_calc_range. Qed.

Lemma value_calc_in_scale_range_witness :
  exists v,
    Hydropathicity_value_calc (lit "GAVLI") 50 Exponential_Variation
    = Return v
    /\ (-4.5 <= v <= 4.5)%R.
Proof.
  apply (@value_calc_in_scale_range (lit "GAVLI") 50 Exponential_Variation).
  - unfold in_scale. repeat constructor; simpl; tauto.
  - lra.
Defined.

Lemma value_calc_repeat (AA : ascii) (n : nat) (Edge_weight : R)
  (Model : string) :
  in_scale AA -> Nat.odd n = true -> (0 < Edge_weight)%R ->
  Hydropathicity_value_calc (repeat AA n) Edge_weight Model
  = Return (scale_value AA).
Proof.
  intros HAA Hodd He.
  assert (Hscale : Forall in_scale (repeat AA n)).
  { apply Forall_forall. intros c Hc. apply repeat_spec in Hc. now subst c. }
  destruct (@value_calc_score (repeat AA n) Edge_weight Model Hscale)
    as [weights [Hw Hv]]; [right; exact He |].
  destruct (@model_weights_Return Model Edge_weight (length (repeat AA n)))
    as [w' [Hw' [Hlen _]]]; [right; exact He |].
  rewrite Hw in Hw'. injection Hw' as <-.
  pose proof (@model_weights_positive Model Edge_weight _ weights He Hw)
    as Hpos.
  rewrite repeat_length in Hlen. rewrite (odd_half n Hodd) in Hlen.
  rewrite Hv. f_equal. unfold score_formula. rewrite repeat_length.
  rewrite (@sum_over_ext n _ (fun i => (scale_value AA * nth i weights 0)%R))
    by (intros i Hi; now rewrite nth_repeat_lt).
  rewrite sum_over_scaled. rewrite <- Hlen, sum_over_all.
  assert (0 < fold_right Rplus 0 weights)%R.
  { apply positive_sum; [exact Hpos |].
    intros ->. simpl in Hlen. apply Nat.odd_spec in Hodd.
    destruct Hodd as [m Hm]. lia. }
  replace (scale_value AA * fold_right Rplus 0 weights
           / fold_right Rplus 0 weights)%R
    with (scale_value AA) by (field; lra).
  destruct (scale_value_tenths HAA) as [z ->]. apply round3_thousandth.
Qed.

(** X6.  A segment of odd length made of one symbol of the scale scores
    exactly the scale value of that symbol, for any positive edge weight and
    either model. *)
Theorem value_calc_uniform (AA : ascii) (n : nat) (Edge_weight : R)
  (Model : string) :
  in_scale AA -> Nat.odd n = true -> (0 < Edge_weight)%R ->
  Hydropathicity_value_calc (repeat AA n) Edge_weight Model
  = Return (scale_value AA).
Proof. apply value_calc_repeat. Qed.

Lemma value_calc_uniform_witness :
  Hydropathicity_value_calc (repeat "A"%char 7) 30 Exponential_Variation
  = Return (scale_value "A"%char).
Proof.
  apply (@value_calc_uniform "A"%char 7 30 Exponential_Variation).
  - unfold in_scale. simpl. tauto.
  - reflexivity.
  - lra.
Defined.

(** X7.  With edge weight 100 the two models agree: the score of a segment
    of odd length over the scale's alphabet is the plain mean of its scale
    values, rounded to 3 decimal places. *)
Theorem value_calc_edge_100_mean (segment : str) (Model : string) :
  Forall in_scale segment -> Nat.odd (length segment) = true ->
  Hydropathicity_value_calc segment 100 Model
  = Return (round3
              (sum_over (length segment)
                 (fun i => scale_value (nth i segment zero))
               / INR (length segment))).
Proof.
  intros Hscale Hodd.
  destruct (@value_calc_score segment 100 Model Hscale)
    as [weights [Hw Hv]]; [right; lra |].
  rewrite model_weights_flat, (odd_half _ Hodd) in Hw.
  injection Hw as <-. rewrite Hv. f_equal. unfold score_formula. f_equal.
  set (n := length segment).
  assert (Hn : (0 < INR n)%R).
  { apply lt_0_INR. apply Nat.odd_spec in Hodd.
    destruct Hodd as [m Hm]. unfold n. lia. }
  rewrite (@sum_over_ext n _
             (fun i => (100 * scale_value (nth i segment zero))%R))
    by (intros i Hi; cbv beta; unfold n in Hi;
        rewrite nth_repeat_lt by assumption; lra).
  rewrite sum_over_scaled.
  rewrite <- (sum_over_all (repeat 100%R n)), repeat_length.
  rewrite (@sum_over_ext n (fun i => nth i (repeat 100%R n) 0%R)
             (fun _ => 100%R))
    by (intros i Hi; now rewrite nth_repeat_lt).
  rewrite sum_over_const. field. lra.
Qed.

Lemma value_calc_edge_100_mean_witness :
  Hydropathicity_value_calc (lit "GAVLI") 100 Exponential_Variation
  = Return (round3
              (sum_over (length (lit "GAVLI"))
                 (fun i => scale_value (nth i (lit "GAVLI") zero))
               / INR (length (lit "GAVLI")))).
Proof.
  apply (@value_calc_edge_100_mean (lit "GAVLI") Exponential_Variation).
  - unfold in_scale. repeat constructor; simpl; tauto.
  - reflexivity.
Defined.

(** ** The mirror image of the weights *)

Lemma model_weights_symmetric (Model : string) (e : R) (n : nat)
  (weights : list R) :
  weights_defined Model e ->
  model_weights Model e n = Return weights ->
  forall i, i < 2 * (n / 2) + 1 ->
    nth i weights 0%R = nth (2 * (n / 2) + 1 - 1 - i) weights 0%R.
Proof.
  intros Hdef Hw i Hi.
  destruct (@model_weights_Return Model e n Hdef)
    as [w' [Hw' [Hlen [Hlin Hexp]]]].
  rewrite Hw in Hw'. injection Hw' as <-.
  destruct (Nat.eq_dec (n / 2) 0) as [Hz | Hnz].
  - f_equal. lia.
  - destruct (string_dec Model Linear_Variation) as [E | N].
    + rewrite (Hlin E), linear_weights_ramp. apply ramp_symmetric; lia.
    + rewrite (Hexp N). apply ramp_symmetric; lia.
Qed.

(** ** What the calculator can answer *)

Lemma weighted_average_KeyError (pre post : str) (AA : ascii)
  (weights : list R) :
  Forall in_scale pre -> ~ in_scale AA ->
  length (pre ++ AA :: post) <= length weights ->
  weighted_average (pre ++ AA :: post) weights = Raise (KeyError AA).
Proof.
  intros Hpre HAA Hlen. unfold weighted_average.
  rewrite enumerate_app. cbn [length seq combine].
  rewrite accumulate_KeyError; [reflexivity | | exact HAA].
  apply enumerate_Forall. intros i c Hi. cbn [fst snd]. split.
  - rewrite Forall_forall in Hpre. apply Hpre. now apply nth_error_In in Hi.
  - assert (i < length pre) by (apply nth_error_Some; congruence).
    rewrite length_app in Hlen. lia.
Qed.

Lemma value_calc_cases (segment : str) (Edge_weight : R)
  (Model : string) :
  match Hydropathicity_value_calc segment Edge_weight Model with
  | Return _ => Forall in_scale segment
  | Raise (KeyError AA) =>
      exists pre post,
        segment = pre ++ AA :: post /\ Forall in_scale pre /\ ~ in_scale AA
  | Raise IndexError => False
  | Raise ValueError => Model <> Linear_Variation /\ Edge_weight = 0%R
  end.
Proof.
  unfold Hydropathicity_value_calc.
  destruct (model_weights_cases Model Edge_weight (length segment))
    as [[HM [He Hw]] | [weights [Hw [Hlen _]]]].
  - rewrite Hw. cbn [bind]. now split.
  - rewrite Hw. cbn [bind].
    pose proof (half_window_covers (length segment)) as Hcover.
    destruct (@first_failing ascii in_scale in_scale_dec segment)
      as [Hall | [pre [AA [post [Hsplit [Hpre HAA]]]]]].
    + rewrite weighted_average_formula by (try assumption; lia).
      exact Hall.
    + assert (Hraise : weighted_average segment weights
                       = Raise (KeyError AA)).
      { rewrite Hsplit. apply weighted_average_KeyError; try assumption.
        rewrite <- Hsplit. lia. }
      rewrite Hraise. now exists pre, post.
Qed.

(** X9.  The calculator returns a score exactly for a segment over the
    scale's alphabet; otherwise it raises the [KeyError] of the first symbol
    outside the scale; it never raises [IndexError] (the weights always
    cover the segment), and [ValueError] only in the exponential model with
    edge weight 0, where the weights are refused before any symbol is
    looked up. *)
Theorem value_calc_outcomes (segment : str) (Edge_weight : R)
  (Model : string) :
  match Hydropathicity_value_calc segment Edge_weight Model with
  | Return _ => Forall in_scale segment
  | Raise (KeyError AA) =>
      exists pre post,
        segment = pre ++ AA :: post /\ Forall in_scale pre /\ ~ in_scale AA
  | Raise IndexError => False
  | Raise ValueError => Model <> Linear_Variation /\ Edge_weight = 0%R
  end.
Proof. apply value_calc_cases. Qed.

(** * More on the profile builder *)

Section ScanOutcome.

Variables (AA_seq : str) (Window_size : Z) (EDGE_weight : R) (model : string).

Let score_at (index : Z) : outcome R :=
  Hydropathicity_value_calc (window AA_seq Window_size index)
    EDGE_weight model.

(** The loop returns the scores of all the positions, or stops at the first
    position whose score raises. *)
Lemma scan_outcome (indices : list Z) :
  forall acc,
    match scan AA_seq Window_size EDGE_weight model indices acc with
    | Return result =>
        exists values,
          result = acc ++ values
          /\ Forall2 (fun index v => score_at index = Return v) indices values
    | Raise e =>
        exists before index after,
          indices = before ++ index :: after
          /\ Forall (fun q => exists v, score_at q = Return v) before
          /\ score_at index = Raise e
    end.
Proof.
  induction indices as [| index rest IH]; intros acc.
  - cbn [scan]. exists []. split; [now rewrite app_nil_r | constructor].
  - cbn [scan]. fold (score_at index).
    destruct (score_at index) as [v | e] eqn:Hscore; cbn [bind].
    + specialize (IH (acc ++ [v])).
      destruct (scan AA_seq Window_size EDGE_weight model rest (acc ++ [v]))
        as [result | e].
      * destruct IH as [values [-> Hall]]. exists (v :: values). split.
        -- now rewrite <- app_assoc.
        -- now constructor.
      * destruct IH as [before [q [after [-> [Hbefore Hq]]]]].
        exists (index :: before), q, after. split; [reflexivity |].
        split; [| exact Hq]. constructor; [eauto | exact Hbefore].
    + exists [], index, rest. split; [reflexivity |].
      split; [constructor | exact Hscore].
Qed.

End ScanOutcome.

Lemma Forall2_right (A B : Type) (Q : A -> B -> Prop) (P : B -> Prop)
  (l : list A) (l' : list B) :
  Forall2 Q l l' -> (forall a b, In a l -> Q a b -> P b) -> Forall P l'.
Proof.
  induction 1 as [| a b l l' Hab _ IH]; intros H; constructor.
  - apply (H a b); [now left | exact Hab].
  - apply IH. intros a' b' Hin. apply H. now right.
Qed.

(** Every symbol of a sequence long enough for one window lies in the
    window of some centre position. *)
Lemma window_cover (AA_seq : str) (W : Z) (k : nat) (c : ascii) :
  (0 <= W)%Z -> (2 * (W / 2) + 1 <= len AA_seq)%Z ->
  nth_error AA_seq k = Some c ->
  exists p, (W / 2 <= p < len AA_seq - W / 2)%Z /\ In c (window AA_seq W p).
Proof.
  intros HW Hlong Hk.
  assert (Hh : (0 <= W / 2)%Z) by (apply Z.div_pos; lia).
  assert (Hklt : k < length AA_seq) by (apply nth_error_Some; congruence).
  unfold len in *.
  set (p := Z.max (W / 2)
              (Z.min (Z.of_nat k) (Z.of_nat (length AA_seq) - W / 2 - 1))).
  assert (Hp : (W / 2 <= p < Z.of_nat (length AA_seq) - W / 2)%Z)
    by (unfold p; lia).
  exists p. split; [exact Hp |].
  destruct (@window_centered AA_seq W p HW Hp) as [_ Hnth].
  apply (@nth_error_In _ _ (Z.to_nat (Z.of_nat k - (p - W / 2)))).
  rewrite Hnth by (unfold p; lia).
  replace (Z.to_nat (p - W / 2) + Z.to_nat (Z.of_nat k - (p - W / 2)))
    with k by (unfold p; lia).
  exact Hk.
Qed.

Lemma array_gen_cases (AA_seq : str) (Window_size : Z) (EDGE_weight : R)
  (model : string) :
  match Hydropathicity_array_gen AA_seq Window_size EDGE_weight model with
  | Return (values, positions) =>
      positions = np_arange (Window_size / 2)
                    (len AA_seq - Window_size / 2)
      /\ length values = length positions
      /\ Forall2 (fun p v =>
                    Hydropathicity_value_calc (window AA_seq Window_size p)
                      EDGE_weight model = Return v) positions values
      /\ (forall p, In p positions ->
            Forall in_scale (window AA_seq Window_size p))
  | Raise (KeyError AA) => In AA AA_seq /\ ~ in_scale AA
  | Raise IndexError => False
  | Raise ValueError => model <> Linear_Variation /\ EDGE_weight = 0%R
  end.
Proof.
  unfold Hydropathicity_array_gen.
  pose proof (@scan_outcome AA_seq Window_size EDGE_weight model
                (np_arange (Window_size / 2)
                   (len AA_seq - Window_size / 2)) []) as Hscan.
  destruct (scan AA_seq Window_size EDGE_weight model
              (np_arange (Window_size / 2) (len AA_seq - Window_size / 2))
              []) as [result | e]; cbn [bind].
  - destruct Hscan as [values [-> Hall]]. cbn [app].
    split; [reflexivity |]. split; [symmetry; exact (Forall2_length Hall) |].
    split; [exact Hall |].
    intros p Hp. apply (In_nth_error _ _) in Hp. destruct Hp as [i Hi].
    destruct (Forall2_nth_error Hall i Hi) as [v [_ Hv]].
    pose proof (value_calc_cases (window AA_seq Window_size p) EDGE_weight
                  model) as Hcases.
    now rewrite Hv in Hcases.
  - destruct Hscan as [before [p [after [_ [_ Hp]]]]].
    pose proof (value_calc_cases (window AA_seq Window_size p) EDGE_weight
                  model) as Hcases.
    rewrite Hp in Hcases. destruct e as [AA | |]; [| exact Hcases ..].
    destruct Hcases as [pre [post [Hsplit [_ HAA]]]].
    split; [| exact HAA].
    apply (@py_slice_incl AA_seq (p - Window_size / 2)
             (p + (Window_size / 2 + 1))).
    fold (window AA_seq Window_size p). rewrite Hsplit.
    apply in_or_app. right. now left.
Qed.

(** X11.  Whatever its arguments, the profile builder either returns one
    value per position of the whole range [[W // 2, L - W // 2)], each the
    score of its window, or raises the [KeyError] of a symbol of the
    sequence that is outside the scale, or (exponential model, edge weight 0)
    [ValueError]; it never returns a shorter profile and never raises
    [IndexError]. *)
Theorem array_gen_outcomes (AA_seq : str) (Window_size : Z)
  (EDGE_weight : R) (model : string) :
  match Hydropathicity_array_gen AA_seq Window_size EDGE_weight model with
  | Return (values, positions) =>
      positions = np_arange (Window_size / 2)
                    (len AA_seq - Window_size / 2)
      /\ length values = length positions
      /\ Forall2 (fun p v =>
                    Hydropathicity_value_calc (window AA_seq Window_size p)
                      EDGE_weight model = Return v) positions values
      /\ (forall p, In p positions ->
            Forall in_scale (window AA_seq Window_size p))
  | Raise (KeyError AA) => In AA AA_seq /\ ~ in_scale AA
  | Raise IndexError => False
  | Raise ValueError => model <> Linear_Variation /\ EDGE_weight = 0%R
  end.
Proof. apply array_gen_cases. Qed.

Lemma array_gen_Return (AA_seq : str) (Window_size : Z) (EDGE_weight : R)
  (model : string) :
  Forall in_scale AA_seq -> weights_defined model EDGE_weight ->
  exists values,
    Hydropathicity_array_gen AA_seq Window_size EDGE_weight model
    = Return (values,
              np_arange (Window_size / 2) (len AA_seq - Window_size / 2))
    /\ Forall2 (fun p v =>
                  Hydropathicity_value_calc (window AA_seq Window_size p)
                    EDGE_weight model = Return v)
         (np_arange (Window_size / 2) (len AA_seq - Window_size / 2))
         values.
Proof.
  intros Hscale Hdef.
  destruct (@scan_Return AA_seq Window_size EDGE_weight model
              (np_arange (Window_size / 2) (len AA_seq - Window_size / 2)))
    with (acc := @nil R) as [values [Hscan Hall]].
  { apply Forall_forall. intros p _.
    destruct (@value_calc_score (window AA_seq Window_size p) EDGE_weight
                model) as [w [_ Hv]];
      [now apply window_in_scale | exact Hdef | eauto]. }
  exists values. split; [| exact Hall].
  unfold Hydropathicity_array_gen. now rewrite Hscan.
Qed.

(** X12.  For a sequence long enough for one window (window size not
    negative, weights buildable), the builder returns a profile exactly when
    every symbol of the sequence is in the scale: the symbols of the first
    and last [W // 2] places, which get no value of their own, are checked
    as well. *)
Theorem array_gen_checks_every_symbol (AA_seq : str) (Window_size : Z)
  (EDGE_weight : R) (model : string) :
  (0 <= Window_size)%Z ->
  (2 * (Window_size / 2) + 1 <= len AA_seq)%Z ->
  weights_defined model EDGE_weight ->
  (exists profile,
      Hydropathicity_array_gen AA_seq Window_size EDGE_weight model
      = Return profile)
  <-> Forall in_scale AA_seq.
Proof.
  intros HW Hlong Hdef. split.
  - intros [[values positions] Hret].
    pose proof (array_gen_cases AA_seq Window_size EDGE_weight model)
      as Hcases.
    rewrite Hret in Hcases. destruct Hcases as [-> [_ [_ Hwin]]].
    apply Forall_forall. intros c Hc.
    apply In_nth_error in Hc. destruct Hc as [k Hk].
    destruct (@window_cover AA_seq Window_size k c HW Hlong Hk)
      as [p [Hp Hin]].
    specialize (Hwin p (proj2 (np_arange_In _ _ p) Hp)).
    rewrite Forall_forall in Hwin. now apply Hwin.
  - intros Hscale.
    destruct (@array_gen_Return AA_seq Window_size EDGE_weight model
                Hscale Hdef) as [values [Hret _]].
    eauto.
Qed.

Lemma array_gen_checks_every_symbol_witness :
  (exists profile,
      Hydropathicity_array_gen (lit "XAVLI") 3 100 Linear_Variation
      = Return profile)
  <-> Forall in_scale (lit "XAVLI").
Proof.
  apply (@array_gen_checks_every_symbol (lit "XAVLI") 3 100 Linear_Variation).
  - lia.
  - vm_compute. discriminate.
  - left. reflexivity.
Defined.

(** X13.  With a positive edge weight, the profile of a sequence over the
    scale's alphabet has all its values within the range of the scale,
    from -4.5 to 4.5. *)
Theorem array_gen_values_in_scale_range (AA_seq : str) (Window_size : Z)
  (EDGE_weight : R) (model : string) :
  Forall in_scale AA_seq -> (0 < EDGE_weight)%R ->
  exists values positions,
    Hydropathicity_array_gen AA_seq Window_size EDGE_weight model
    = Return (values, positions)
    /\ Forall (fun v => (-4.5 <= v <= 4.5)%R) values.
Proof.
  intros Hscale He.
  destruct (@array_gen_Return AA_seq Window_size EDGE_weight model Hscale)
    as [values [Hret Hall]]; [right; exact He |].
  exists values. eexists. split; [exact Hret |].
  apply (@Forall2_right _ _ _ _ _ _ Hall). intros p v _ Hv.
  destruct (@value_calc_range (window AA_seq Window_size p) EDGE_weight model)
    as [v' [Hv' Hrange]]; [now apply window_in_scale | exact He |].
  rewrite Hv in Hv'. injection Hv' as <-. exact Hrange.
Qed.

Lemma array_gen_values_in_scale_range_witness :
  exists values positions,
    Hydropathicity_array_gen (lit "GAVLI") 3 50 Exponential_Variation
    = Return (values, positions)
    /\ Forall (fun v => (-4.5 <= v <= 4.5)%R) values.
Proof.
  apply (@array_gen_values_in_scale_range (lit "GAVLI") 3 50
           Exponential_Variation).
  - unfold in_scale. repeat constructor; simpl; tauto.
  - lra.
Defined.

Lemma nth_error_ext_eq (A : Type) (l l' : list A) :
  (forall i, nth_error l i = nth_error l' i) -> l = l'.
Proof.
  revert l'. induction l as [| x l IH]; intros l' H.
  - destruct l' as [| y l']; [reflexivity |]. specialize (H 0). discriminate H.
  - destruct l' as [| y l']; [specialize (H 0); discriminate H |].
    pose proof (H 0) as H0. injection H0 as ->. f_equal.
    apply IH. intros i. exact (H (S i)).
Qed.

Lemma window_repeat (AA : ascii) (n : nat) (W p : Z) :
  (0 <= W)%Z -> (W / 2 <= p < len (repeat AA n) - W / 2)%Z ->
  window (repeat AA n) W p = repeat AA (Z.to_nat (2 * (W / 2) + 1)).
Proof.
  intros HW Hp.
  assert (Hh : (0 <= W / 2)%Z) by (apply Z.div_pos; lia).
  destruct (@window_centered (repeat AA n) W p HW Hp) as [Hlen Hnth].
  apply nth_error_ext_eq. intros j.
  destruct (Nat.lt_ge_cases j (Z.to_nat (2 * (W / 2) + 1))) as [Hj | Hj].
  - rewrite (Hnth j Hj).
    unfold len in Hp. rewrite repeat_length in Hp.
    rewrite !nth_error_repeat by lia. reflexivity.
  - rewrite (proj2 (nth_error_None _ _)) by lia.
    rewrite (proj2 (nth_error_None _ _)) by (rewrite repeat_length; lia).
    reflexivity.
Qed.

(** X14.  A sequence made of one symbol of the scale has a flat profile:
    every value is the scale value of that symbol, for any window size that
    is not negative, any positive edge weight and either model. *)
Theorem array_gen_homopolymer (AA : ascii) (n : nat) (Window_size : Z)
  (EDGE_weight : R) (model : string) :
  in_scale AA -> (0 <= Window_size)%Z -> (0 < EDGE_weight)%R ->
  Hydropathicity_array_gen (repeat AA n) Window_size EDGE_weight model
  = Return (repeat (scale_value AA)
              (Z.to_nat (Z.of_nat n - 2 * (Window_size / 2))),
            np_arange (Window_size / 2) (Z.of_nat n - Window_size / 2)).
Proof.
  intros HAA HW He.
  assert (Hscale : Forall in_scale (repeat AA n)).
  { apply Forall_forall. intros c Hc. apply repeat_spec in Hc. now subst c. }
  destruct (@array_gen_Return (repeat AA n) Window_size EDGE_weight model
              Hscale) as [values [Hret Hall]]; [right; exact He |].
  rewrite Hret. unfold len. rewrite repeat_length. do 2 f_equal.
  assert (Hflat : Forall (eq (scale_value AA)) values).
  { apply (@Forall2_right _ _ _ _ _ _ Hall). intros p v Hp Hv.
    apply np_arange_In in Hp.
    rewrite window_repeat in Hv by assumption.
    rewrite value_calc_repeat in Hv; [congruence | exact HAA | | exact He].
    assert (Hh : (0 <= Window_size / 2)%Z) by (apply Z.div_pos; lia).
    replace (Z.to_nat (2 * (Window_size / 2) + 1))
      with (2 * Z.to_nat (Window_size / 2) + 1) by lia.
    rewrite Nat.add_comm, Nat.odd_add_mul_2. reflexivity. }
  rewrite (Forall_eq_repeat Hflat). f_equal.
  rewrite <- (Forall2_length Hall), np_arange_length.
  unfold len. rewrite repeat_length. f_equal. lia.
Qed.

Lemma array_gen_homopolymer_witness :
  Hydropathicity_array_gen (repeat "K"%char 9) 5 20 Linear_Variation
  = Return (repeat (scale_value "K"%char)
              (Z.to_nat (Z.of_nat 9 - 2 * (5 / 2))),
            np_arange (5 / 2) (Z.of_nat 9 - 5 / 2)).
Proof.
  apply (@array_gen_homopolymer "K"%char 9 5 20 Linear_Variation).
  - unfold in_scale. simpl. tauto.
  - lia.
  - lra.
Defined.

(** * More on the sequence preview *)

Lemma Preview_Sequence_groups (Seq : str) :
  Preview_Sequence Seq
  = str_join (lit "    ")
      (break_lines at_multiple_of_60 0 (groups_of_ten Seq)).
Proof.
  unfold Preview_Sequence, len. f_equal.
  rewrite preview_loop_map, py_range_tens, groups_of_ten_map.
  rewrite break_lines_map, map_map. cbn [app].
  apply map_ext. intros k.
  rewrite index_multiple_of_60, py_slice_nonneg by lia.
  replace (Z.to_nat (Z.of_nat k * 10 + 10 - Z.of_nat k * 10)) with 10 by lia.
  replace (Z.to_nat (Z.of_nat k * 10)) with (10 * k) by lia.
  reflexivity.
Qed.

Lemma concat_groups_bounded (n : nat) :
  forall s : str, length s <= n -> concat (groups_of_ten s) = s.
Proof.
  induction n as [| n IH]; intros s Hs.
  - destruct s as [| c s]; [reflexivity | simpl in Hs; lia].
  - destruct s as [| c s']; [reflexivity |].
    rewrite groups_of_ten_equation_2.
    remember (c :: s') as l eqn:Hl.
    assert (Hlen : 1 <= length l) by (subst l; simpl; lia).
    cbn [concat]. rewrite IH by (rewrite length_skipn; lia).
    apply firstn_skipn.
Qed.

Lemma concat_groups (s : str) : concat (groups_of_ten s) = s.
Proof. now apply (@concat_groups_bounded (length s)). Qed.

Lemma filter_break_lines (p : ascii -> bool) (breaks : nat -> bool)
  (groups : list str) :
  p newline = false ->
  forall k,
    concat (map (filter p) (break_lines breaks k groups))
    = filter p (concat groups).
Proof.
  intros Hnl. induction groups as [| g rest IH]; intros k; [reflexivity |].
  cbn [break_lines map concat]. rewrite IH, filter_app. f_equal.
  destruct (breaks k); [| reflexivity].
  cbn [filter]. now rewrite Hnl.
Qed.

(** X16.  Taking the spaces and line breaks out of the preview of a
    sequence without spaces and line breaks gives the sequence back: the
    preview drops, repeats and reorders nothing. *)
Theorem Preview_Sequence_round_trip (Seq : str) :
  Forall (fun c => not_layout c = true) Seq ->
  filter not_layout (Preview_Sequence Seq) = Seq.
Proof.
  intros Hseq. rewrite Preview_Sequence_groups.
  rewrite filter_str_join by reflexivity.
  rewrite filter_break_lines by reflexivity.
  rewrite concat_groups. now apply filter_all.
Qed.

Lemma Preview_Sequence_round_trip_witness :
  filter not_layout (Preview_Sequence (lit "GAVLIPCMSTNQF"))
  = lit "GAVLIPCMSTNQF".
Proof.
  apply (@Preview_Sequence_round_trip (lit "GAVLIPCMSTNQF")).
  repeat constructor.
Defined.

Lemma str_join_length (sep : str) (parts : list str) :
  length (str_join sep parts)
  = length (concat parts) + length sep * (length parts - 1).
Proof.
  induction parts as [| p rest IH]; [simpl; lia |].
  cbn [str_join]. destruct rest as [| q rest'].
  - simpl. rewrite app_nil_r. lia.
  - rewrite !length_app, IH. cbn [concat length].
    rewrite !length_app. lia.
Qed.

Lemma break_lines_length (breaks : nat -> bool) (groups : list str) :
  forall k,
    length (break_lines breaks k groups) = length groups
    /\ length (concat (break_lines breaks k groups))
       = length (concat groups)
         + length (filter breaks (seq k (length groups))).
Proof.
  induction groups as [| g rest IH]; intros k; [split; reflexivity |].
  destruct (IH (S k)) as [IH1 IH2].
  cbn [break_lines length concat seq filter]. rewrite !length_app, IH1, IH2.
  split; [reflexivity |].
  destruct (breaks k); cbn [length]; lia.
Qed.

Lemma sixth_step (g : nat) :
  (S g + 5) / 6
  = (g + 5) / 6 + (if at_multiple_of_60 g then 1 else 0).
Proof.
  unfold at_multiple_of_60.
  pose proof (Nat.div_mod_eq g 6) as Hg.
  pose proof (Nat.mod_upper_bound g 6 ltac:(lia)) as Hr.
  remember (g / 6) as q eqn:Hq. clear Hq.
  destruct (g mod 6) as [| [| [| [| [| [| r]]]]]]; [.. | lia]; subst g;
    match goal with
    | |- context [6 * q + ?k] =>
        replace (10 * (6 * q + k)) with (10 * k + q * 60) by lia;
        replace (S (6 * q + k) + 5) with (k + 6 + q * 6) by lia;
        replace (6 * q + k + 5) with (k + 5 + q * 6) by lia
    end;
    rewrite Nat.Div0.mod_add, !Nat.div_add by lia; cbn; lia.
Qed.

Lemma count_multiples_of_60 (g : nat) :
  length (filter at_multiple_of_60 (seq 0 g)) = (g + 5) / 6.
Proof.
  induction g as [| g IH]; [reflexivity |].
  rewrite seq_S, filter_app, length_app, IH, sixth_step.
  cbn [Nat.add filter]. destruct (at_multiple_of_60 g); reflexivity.
Qed.

(** X17.  The preview of a sequence of [n] symbols has [(n + 9) / 10]
    groups and is [n + 4 * (groups - 1) + (groups + 5) / 6] characters long:
    the symbols, four spaces between neighbouring groups, and one line break
    for every started run of six groups. *)
Theorem Preview_Sequence_length (Seq : str) :
  let n := length Seq in
  let groups := (n + 9) / 10 in
  length (Preview_Sequence Seq) = n + 4 * (groups - 1) + (groups + 5) / 6.
Proof.
  cbv zeta. rewrite Preview_Sequence_groups, str_join_length.
  destruct (break_lines_length at_multiple_of_60 (groups_of_ten Seq) 0)
    as [H1 H2].
  rewrite H1, H2, concat_groups, count_multiples_of_60.
  rewrite groups_of_ten_map, length_map, length_seq.
  change (length (lit "    ")) with 4. lia.
Qed.

(** * The calculator over any arithmetic *)

Unset Implicit Arguments.

Section ArithmeticFacts.

Variable A : arithmetic.

Variable geomspace : num A -> num A -> nat -> outcome (list (num A)).

Lemma dict_get_over_found (d : list (ascii * num A)) (k : ascii) :
  In k (map fst d) -> exists v, dict_get_over A d k = Return v.
Proof.
  induction d as [| [k' v] d IH]; simpl; intros H; [contradiction |].
  destruct (Ascii.eqb_spec k' k) as [E | N].
  - now exists v.
  - destruct H as [E | H]; [contradiction | now apply IH].
Qed.

Lemma scale_value_over_found (c : ascii) :
  In c (map fst (num_scale A)) ->
  dict_get_over A (num_scale A) c = Return (scale_value_over A c).
Proof.
  intros H. unfold scale_value_over.
  destruct (dict_get_over_found (num_scale A) c H) as [v ->]. reflexivity.
Qed.

Lemma accumulate_over_Return (items : list (nat * ascii))
  (weights : list (num A)) :
  Forall (fun item => In (snd item) (map fst (num_scale A))
                      /\ fst item < length weights) items ->
  forall total,
    accumulate_over A items weights total
    = Return
        (fold_left
           (fun total item =>
              num_add A total
                (num_mul A (scale_value_over A (snd item))
                   (nth (fst item) weights (num_zero A))))
           items total).
Proof.
  induction 1 as [| [index AA] rest [HAA Hindex] _ IH]; intros total.
  - reflexivity.
  - simpl in HAA, Hindex. cbn [accumulate_over fold_left fst snd].
    rewrite (scale_value_over_found AA HAA). cbn [bind].
    unfold np_index_over.
    destruct (nth_error weights index) as [w |] eqn:Hw;
      [| apply nth_error_None in Hw; lia].
    cbn [bind]. rewrite (nth_error_nth _ _ (num_zero A) Hw). apply IH.
Qed.

Lemma fold_left_over_map (X Y Z : Type) (f : Z -> Y -> Z) (g : X -> Y)
  (l : list X) (z : Z) :
  fold_left f (map g l) z = fold_left (fun acc x => f acc (g x)) l z.
Proof.
  revert z. induction l as [| x l IH]; intros z; [reflexivity |].
  cbn [map fold_left]. apply IH.
Qed.

Lemma weighted_average_over_mean (segment : str) (weights : list (num A)) :
  Forall (fun AA => In AA (map fst (num_scale A))) segment ->
  length segment <= length weights ->
  weighted_average_over A segment weights
  = Return (weighted_mean_over A segment weights).
Proof.
  intros Hscale Hlen. unfold weighted_average_over.
  rewrite accumulate_over_Return.
  - cbn [bind]. unfold weighted_mean_over.
    rewrite (enumerate_nth segment zero), fold_left_over_map.
    reflexivity.
  - apply enumerate_Forall. intros i c Hi. cbn [fst snd]. split.
    + rewrite Forall_forall in Hscale. apply Hscale.
      now apply nth_error_In in Hi.
    + assert (i < length segment) by (apply nth_error_Some; congruence). lia.
Qed.

(** C2.  In whatever arithmetic the code runs (numpy's binary64 among
    them), for a segment over the scale's alphabet the calculator returns
    the products [scale[segment[i]] * weights[i]], added up from 0 in the
    order of the indices, divided by [np.sum(weights)] and rounded to 3
    decimal places: with the weights of the linear model, and with those of
    the exponential model whenever [np.geomspace] returns its two halves.
    All numpy is asked for is that [np.linspace] and [np.geomspace] return
    as many numbers as requested. *)
Theorem value_calc_weighted_mean_any_arithmetic (segment : str)
  (Edge_weight : num A) :
  (forall a b n, length (num_linspace A a b n) = n) ->
  (forall a b n l, geomspace a b n = Return l -> length l = n) ->
  Forall (fun AA => In AA (map fst (num_scale A))) segment ->
  Hydropathicity_value_calc_over A geomspace segment Edge_weight
    Linear_Variation
  = Return (weighted_mean_over A segment
              (linear_weights_over A Edge_weight (length segment)))
  /\ (forall rising falling,
        geomspace Edge_weight (num_hundred A) (length segment / 2 + 1)
        = Return rising ->
        geomspace (num_hundred A) Edge_weight (length segment / 2 + 1)
        = Return falling ->
        Hydropathicity_value_calc_over A geomspace segment Edge_weight
          Exponential_Variation
        = Return (weighted_mean_over A segment (rising ++ tl falling))).
Proof.
  intros Hlin Hgeom Hscale.
  pose proof (half_window_covers (length segment)) as Hcover.
  assert (Htl : forall l : list (num A),
             length l = length segment / 2 + 1 ->
             length (tl l) = length segment / 2).
  { intros l Hl. destruct l as [| x l]; simpl in *; lia. }
  split.
  - unfold Hydropathicity_value_calc_over, model_weights_over.
    cbn [String.eqb Linear_Variation]. cbn [bind].
    change (String.eqb Linear_Variation Linear_Variation) with true.
    cbn [bind]. apply weighted_average_over_mean; [exact Hscale |].
    unfold linear_weights_over.
    rewrite length_app, Hlin, (Htl _ (Hlin _ _ _)). lia.
  - intros rising falling Hrising Hfalling.
    unfold Hydropathicity_value_calc_over, model_weights_over.
    change (String.eqb Exponential_Variation Linear_Variation) with false.
    unfold exponential_weights_over. rewrite Hrising, Hfalling.
    cbn [bind]. apply weighted_average_over_mean; [exact Hscale |].
    rewrite length_app, (Hgeom _ _ _ _ Hrising),
      (Htl _ (Hgeom _ _ _ _ Hfalling)).
    lia.
Qed.

End ArithmeticFacts.

(** Over the exact reals the calculator is [Hydropathicity_value_calc]. *)
Lemma value_calc_over_reals (segment : str) (Edge_weight : R)
  (Model : string) :
  Hydropathicity_value_calc_over real_arithmetic np_geomspace segment
    Edge_weight Model
  = Hydropathicity_value_calc segment Edge_weight Model.
Proof. reflexivity. Qed.

Lemma np_geomspace_length (a b : R) (n : nat) (l : list R) :
  np_geomspace a b n = Return l -> length l = n.
Proof.
  unfold np_geomspace.
  destruct (Req_dec_T a 0); [discriminate |].
  destruct (Req_dec_T b 0); [discriminate |].
  intros H. injection H as <-. now rewrite length_map, np_linspace_length.
Qed.

Lemma value_calc_weighted_mean_any_arithmetic_witness :
  Hydropathicity_value_calc_over real_arithmetic np_geomspace (lit "GAV")
    50%R Linear_Variation
  = Return (weighted_mean_over real_arithmetic (lit "GAV")
              (linear_weights_over real_arithmetic 50%R
                 (length (lit "GAV"))))
  /\ (forall rising falling,
        np_geomspace 50%R (num_hundred real_arithmetic)
          (length (lit "GAV") / 2 + 1) = Return rising ->
        np_geomspace (num_hundred real_arithmetic) 50%R
          (length (lit "GAV") / 2 + 1) = Return falling ->
        Hydropathicity_value_calc_over real_arithmetic np_geomspace
          (lit "GAV") 50%R Exponential_Variation
        = Return (weighted_mean_over real_arithmetic (lit "GAV")
                    (rising ++ tl falling))).
Proof.
  apply (value_calc_weighted_mean_any_arithmetic real_arithmetic
           np_geomspace (lit "GAV") 50%R).
  - exact np_linspace_length.
  - exact np_geomspace_length.
  - repeat constructor; simpl; tauto.
Defined.

(** * Exact reals against binary64 *)

Module F64Facts.

Import Floats.
#[local] Set Warnings "-inexact-float".

Lemma linear_weights_6_3 : F64.linear_weights 6 3 = [6; 100; 6]%float.
Proof. vm_compute. reflexivity. Qed.

Lemma ATK_binary64 :
  weighted_average_over F64.arithmetic64 (lit "ATK") [6; 100; 6]%float
  = Return (-0.737)%float.
Proof. vm_compute. reflexivity. Qed.

Lemma ATK_binary64_tripled :
  weighted_average_over F64.arithmetic64 (lit "ATK")
    (map (PrimFloat.mul 3) [6; 100; 6]%float)
  = Return (-0.738)%float.
Proof. vm_compute. reflexivity. Qed.

Lemma linear_weights_6_3_real : linear_weights 6 3 = [6; 100; 6]%R.
Proof.
  unfold linear_weights, np_linspace, center_weight.
  cbn [Nat.div Nat.divmod fst Nat.add seq map tl app Nat.sub INR].
  repeat f_equal; lra.
Qed.

Lemma round3_tie : round3 (-0.7375) = (-0.738)%R.
Proof.
  unfold round3, rint.
  replace (-0.7375 * 1000)%R with (-737.5)%R by lra.
  rewrite <- (Int_part_spec (-737.5) (-738)) by lra.
  destruct (Rlt_dec (-737.5 - IZR (-738)) (1 / 2)) as [H | _]; [lra |].
  destruct (Rlt_dec (1 / 2) (-737.5 - IZR (-738))) as [H | _]; [lra |].
  cbn [Z.even]. lra.
Qed.

(** Where the idealisation and the code part: "ATK" with edge weight 6 in
    the linear model has the exact quotient -0.7375, a rounding tie, which
    rounds to -0.738; in binary64 the quotient is just above the tie and the
    code returns -0.737. *)
Lemma ATK_tie :
  Hydropathicity_value_calc (lit "ATK") 6 Linear_Variation
  = Return (-0.738)%R
  /\ (forall geomspace,
        Hydropathicity_value_calc_over F64.arithmetic64 geomspace
          (lit "ATK") (F64.of_nat 6) Linear_Variation
        = Return (-0.737)%float).
Proof.
  split.
  - destruct (@value_calc_score (lit "ATK") 6%R Linear_Variation)
      as [weights [Hw Hv]].
    + unfold in_scale. repeat constructor; simpl; tauto.
    + now left.
    + change (model_weights Linear_Variation 6 (length (lit "ATK")))
        with (Return (linear_weights 6 3)) in Hw.
      injection Hw as <-. rewrite Hv. f_equal.
      rewrite linear_weights_6_3_real.
      unfold score_formula, sum_over.
      cbn [lit list_ascii_of_string length seq map nth fold_right].
      unfold scale_value.
      cbn [dict_get Kyte_Doolittle_scale Ascii.eqb Bool.eqb andb].
      replace ((1.8 * 6 + (-0.7 * 100 + (-3.9 * 6 + 0)))
               / (6 + (100 + (6 + 0))))%R
        with (-0.7375)%R by lra.
      exact round3_tie.
  - intros geomspace. vm_compute. reflexivity.
Qed.

(** C7, as the code has it.  Multiplying every weight by one positive
    constant leaves the normalised weighted average unchanged in exact
    arithmetic (for a segment over the scale's alphabet and as many positive
    weights).  In binary64 the quotient can move by a rounding error, and
    the rounding to 3 decimal places can turn that into 0.001 on the
    result: "ATK" scores -0.737 with the weights [6, 100, 6] and -0.738
    with three times these weights. *)
Theorem weighted_average_scaling (segment : str) (weights : list R)
  (c : R) :
  Forall in_scale segment ->
  length weights = length segment ->
  Forall (fun w => (0 < w)%R) weights ->
  (0 < c)%R ->
  (exists v,
      weighted_average segment weights = Return v
      /\ weighted_average segment (map (Rmult c) weights) = Return v)
  /\ (weighted_average_over F64.arithmetic64 (lit "ATK")
        [6; 100; 6]%float
      = Return (-0.737)%float
      /\ weighted_average_over F64.arithmetic64 (lit "ATK")
           (map (PrimFloat.mul 3) [6; 100; 6]%float)
         = Return (-0.738)%float).
Proof.
  intros Hscale Hlen Hpos Hc. split.
  - now apply weighted_average_scaled.
  - split; [exact ATK_binary64 | exact ATK_binary64_tripled].
Qed.

Lemma weighted_average_scaling_witness :
  (exists v,
      weighted_average (lit "GAV") [50; 100; 50]%R = Return v
      /\ weighted_average (lit "GAV") (map (Rmult 2) [50; 100; 50]%R)
         = Return v)
  /\ (weighted_average_over F64.arithmetic64 (lit "ATK")
        [6; 100; 6]%float
      = Return (-0.737)%float
      /\ weighted_average_over F64.arithmetic64 (lit "ATK")
           (map (PrimFloat.mul 3) [6; 100; 6]%float)
         = Return (-0.738)%float).
Proof.
  apply (@weighted_average_scaling (lit "GAV") [50; 100; 50]%R 2%R).
  - unfold in_scale. repeat constructor; simpl; tauto.
  - reflexivity.
  - repeat constructor; lra.
  - lra.
Defined.

(** C7, as stated, fails in binary64: "ATK" is over the scale's alphabet,
    [6, 100, 6] are three positive weights and 3 is a positive constant, yet
    lines 93-97 give -0.737 before and -0.738 after the scaling, which is
    no floating-point tolerance apart. *)
Lemma scaled_weights_change_the_score :
  weighted_average_over F64.arithmetic64 (lit "ATK") [6; 100; 6]%float
  = Return (-0.737)%float
  /\ weighted_average_over F64.arithmetic64 (lit "ATK")
       (map (PrimFloat.mul 3) [6; 100; 6]%float)
     = Return (-0.738)%float
  /\ (PrimFloat.abs (-0.737 - -0.738) <? 0.0009)%float = false.
Proof.
  split; [exact ATK_binary64 |]. split; [exact ATK_binary64_tripled |].
  vm_compute. reflexivity.
Qed.

End F64Facts.

(** * The shape of the weight vector *)

Module F64Shape.

Import Floats.
#[local] Set Warnings "-inexact-float".

Lemma form_shape_ok :
  forallb (fun edge => forallb (F64.shape_ok edge) F64.form_windows)
    F64.form_edges
  = true.
Proof. vm_compute. reflexivity. Qed.

Lemma weights_2_7_entries :
  nth 1 (F64.linear_weights 2 7) nan = 34.666666666666664%float
  /\ nth 5 (F64.linear_weights 2 7) nan = 34.66666666666667%float
  /\ (nth 1 (F64.linear_weights 2 7) nan
      =? nth 5 (F64.linear_weights 2 7) nan)%float = false.
Proof. repeat split; vm_compute; reflexivity. Qed.

(** C3, as the code has it.  For an odd window size [n >= 3] (the length of
    the scored segment) and a positive edge weight, in the linear and in
    the exponential model (any [Model] other than "Linear Variation"), the
    weight vector has length [n] and the centre weight 100 in the middle; in
    exact arithmetic it reads the same from both ends, and for an edge
    weight of at most 100 no entry exceeds the middle one.  In binary64, for
    the edge weights 1..100 and the odd window sizes 3..21 of the form, the
    weights of the linear model have length [n], the edge weight at both
    ends and exactly 100 in the middle, no entry is above 100, and mirrored
    entries are within [2^-46] of each other. *)
Theorem weights_shape (Model : string) (edge_weight : R) (n : nat) :
  Nat.odd n = true -> (3 <= n)%nat -> (0 < edge_weight)%R ->
  (exists weights,
      model_weights Model edge_weight n = Return weights
      /\ length weights = n
      /\ nth (n / 2) weights 0%R = center_weight
      /\ (forall i, (i < n)%nat ->
            nth i weights 0%R = nth (n - 1 - i) weights 0%R)
      /\ ((edge_weight <= 100)%R ->
          forall i, (i < n)%nat ->
            (nth i weights 0 <= nth (n / 2) weights 0)%R))
  /\ (forall edge window,
        In edge F64.form_edges -> In window F64.form_windows ->
        length (F64.linear_weights edge window) = window
        /\ (nth 0 (F64.linear_weights edge window) nan
            =? F64.of_nat edge)%float = true
        /\ (nth (window - 1) (F64.linear_weights edge window) nan
            =? F64.of_nat edge)%float = true
        /\ (nth (window / 2) (F64.linear_weights edge window) nan
            =? 100)%float = true
        /\ (forall i, (i < window)%nat ->
              (nth i (F64.linear_weights edge window) nan <=? 100)%float
              = true
              /\ (PrimFloat.abs
                    (nth i (F64.linear_weights edge window) nan
                     - nth (window - 1 - i)
                         (F64.linear_weights edge window) nan)
                  <=? 0x1p-46)%float = true)).
Proof.
  intros Hodd Hn He. split.
  - pose proof (odd_half n Hodd) as Hhalf.
    assert (Hh : (1 <= n / 2)%nat) by lia.
    assert (Hdef : weights_defined Model edge_weight) by (right; exact He).
    destruct (@model_weights_Return Model edge_weight n Hdef)
      as [weights [Hw [Hlen [Hlin Hexp]]]].
    exists weights. split; [exact Hw |]. split; [lia |].
    assert (Hsym : forall i, (i < n)%nat ->
               nth i weights 0%R = nth (n - 1 - i) weights 0%R).
    { intros i Hi.
      rewrite (@model_weights_symmetric Model edge_weight n weights Hdef Hw i)
        by lia.
      f_equal. lia. }
    destruct (string_dec Model Linear_Variation) as [E | N].
    + rewrite (Hlin E), linear_weights_ramp in *.
      split; [now apply ramp_nth_middle |]. split; [exact Hsym |].
      intros Hle i Hi. rewrite (@ramp_nth_middle _ _ _ _ _ Hh).
      apply (@ramp_bounds (fun x => x) edge_weight center_weight 0%R
               (n / 2) i);
        [tauto | unfold center_weight; lra | lia | lia].
    + rewrite (Hexp N) in *.
      split; [| split; [exact Hsym |]].
      * rewrite ramp_nth_middle by assumption.
        unfold center_weight. apply exp_ln. lra.
      * intros Hle i Hi. rewrite (@ramp_nth_middle _ _ _ _ _ Hh).
        apply (@ramp_bounds exp (ln edge_weight) (ln center_weight) 0%R
                 (n / 2) i);
          [apply exp_le | apply ln_le_100; lra | lia | lia].
  - intros edge window Hedge Hwindow.
    pose proof form_shape_ok as Hall.
    rewrite forallb_forall in Hall. specialize (Hall edge Hedge).
    rewrite forallb_forall in Hall. specialize (Hall window Hwindow).
    unfold F64.shape_ok in Hall.
    apply andb_prop in Hall. destruct Hall as [Hall Hmirror].
    apply andb_prop in Hall. destruct Hall as [Hall Hmiddle].
    apply andb_prop in Hall. destruct Hall as [Hall Hlast].
    apply andb_prop in Hall. destruct Hall as [Hlength Hfirst].
    apply Nat.eqb_eq in Hlength.
    split; [exact Hlength |]. split; [exact Hfirst |].
    split; [exact Hlast |]. split; [exact Hmiddle |].
    intros i Hi. rewrite forallb_forall in Hmirror.
    apply andb_prop. apply Hmirror. apply in_seq. lia.
Qed.

Lemma weights_shape_witness :
  (exists weights,
      model_weights Exponential_Variation 50 5 = Return weights
      /\ length weights = 5%nat
      /\ nth (5 / 2) weights 0%R = center_weight
      /\ (forall i, (i < 5)%nat ->
            nth i weights 0%R = nth (5 - 1 - i) weights 0%R)
      /\ ((50 <= 100)%R ->
          forall i, (i < 5)%nat ->
            (nth i weights 0 <= nth (5 / 2) weights 0)%R))
  /\ (forall edge window,
        In edge F64.form_edges -> In window F64.form_windows ->
        length (F64.linear_weights edge window) = window
        /\ (nth 0 (F64.linear_weights edge window) nan
            =? F64.of_nat edge)%float = true
        /\ (nth (window - 1) (F64.linear_weights edge window) nan
            =? F64.of_nat edge)%float = true
        /\ (nth (window / 2) (F64.linear_weights edge window) nan
            =? 100)%float = true
        /\ (forall i, (i < window)%nat ->
              (nth i (F64.linear_weights edge window) nan <=? 100)%float
              = true
              /\ (PrimFloat.abs
                    (nth i (F64.linear_weights edge window) nan
                     - nth (window - 1 - i)
                         (F64.linear_weights edge window) nan)
                  <=? 0x1p-46)%float = true)).
Proof.
  apply (@weights_shape Exponential_Variation 50%R 5%nat).
  - reflexivity.
  - lia.
  - lra.
Defined.

(** C3, as stated, fails twice.  For an edge weight above 100 the middle is
    not the maximum: window size 3 and edge weight 200 give the linear
    weights [200, 100, 200].  And in binary64 the weights are not exactly
    symmetric: for window size 7 and edge weight 2 in the linear model,
    [weights[1]] is 34.666666666666664 and [weights[5]] is
    34.66666666666667. *)
Lemma weights_peak_and_mirror_fail :
  (Nat.odd 3 = true /\ (0 < 200)%R
   /\ model_weights Linear_Variation 200 3 = Return [200; 100; 200]%R
   /\ ~ (forall i, (i < 3)%nat ->
           (nth i [200; 100; 200] 0 <= nth (3 / 2) [200; 100; 200] 0)%R))
  /\ (Nat.odd 7 = true
      /\ nth 1 (F64.linear_weights 2 7) nan = 34.666666666666664%float
      /\ nth (7 - 1 - 1) (F64.linear_weights 2 7) nan
         = 34.66666666666667%float
      /\ (nth 1 (F64.linear_weights 2 7) nan
          =? nth (7 - 1 - 1) (F64.linear_weights 2 7) nan)%float = false).
Proof.
  split.
  - split; [reflexivity |]. split; [lra |]. split.
    + change (model_weights Linear_Variation 200 3)
        with (Return (linear_weights 200 3)).
      now rewrite linear_weights_200_3.
    + intros H. specialize (H 0%nat ltac:(lia)).
      cbn [nth Nat.div Nat.divmod fst] in H. lra.
  - split; [reflexivity |]. exact weights_2_7_entries.
Qed.

End F64Shape.
